(** * evalscope.utils.utils.ResponseParser

    A shallow embedding of the answer-extraction functions of
    [evalscope/utils/utils.py] (class [ResponseParser]) together with the
    part of Python's [str] and [re] semantics those functions rely on.

    Python strings are sequences of Unicode code points; a code point is
    modelled as an [N] and a string as a [list N].  String literals of the
    source are written as UTF-8 literals and decoded with [u]. *)

From Stdlib Require Import List NArith Arith Bool String Ascii Lia.
Import ListNotations.

Local Open Scope N_scope.
Local Open Scope list_scope.

Set Implicit Arguments.

(* ================================================================== *)
(** ** Python strings *)

Definition str := list N.

(** UTF-8 decoding of a byte sequence (well-formed input assumed; used only
    on the literals of this file). *)
Fixpoint utf8_decode (bs : list N) : str :=
  match bs with
  | [] => []
  | b :: r =>
      if b <? 128 then b :: utf8_decode r
      else if b <? 224 then
        match r with
        | b1 :: r' => ((b mod 32) * 64 + b1 mod 64) :: utf8_decode r'
        | _ => []
        end
      else if b <? 240 then
        match r with
        | b1 :: b2 :: r' =>
            ((b mod 16) * 4096 + (b1 mod 64) * 64 + b2 mod 64) :: utf8_decode r'
        | _ => []
        end
      else
        match r with
        | b1 :: b2 :: b3 :: r' =>
            ((b mod 8) * 262144 + (b1 mod 64) * 4096 + (b2 mod 64) * 64 + b3 mod 64)
              :: utf8_decode r'
        | _ => []
        end
  end.

Definition u (s : string) : str :=
  utf8_decode (map N_of_ascii (list_ascii_of_string s)).

(** One-character string literal. *)
Definition ch (s : string) : N := hd 0 (u s).

Definition mem (c : N) (s : str) : bool := existsb (N.eqb c) s.

Fixpoint str_eqb (a b : str) : bool :=
  match a, b with
  | [], [] => true
  | x :: a', y :: b' => (x =? y) && str_eqb a' b'
  | _, _ => false
  end.

(** [a.startswith(p)], as a function of the prefix first. *)
Fixpoint prefixb (p s : str) : bool :=
  match p, s with
  | [], _ => true
  | x :: p', y :: s' => (x =? y) && prefixb p' s'
  | _ :: _, [] => false
  end.

(** [t in options] for a string [t] and a list of strings. *)
Definition in_list (t : str) (options : list str) : bool :=
  existsb (str_eqb t) options.

(** [str.isspace] on one code point (CPython's [Py_UNICODE_ISSPACE]); the
    same set is stripped by [str.strip()] and matched by [\s] in a [str]
    pattern. *)
Definition isspace (c : N) : bool :=
  ((9 <=? c) && (c <=? 13)) || ((28 <=? c) && (c <=? 32))
  || (c =? 133) || (c =? 160) || (c =? 5760)
  || ((8192 <=? c) && (c <=? 8202))
  || (c =? 8232) || (c =? 8233) || (c =? 8239) || (c =? 8287) || (c =? 12288).

Fixpoint lstrip (s : str) : str :=
  match s with
  | c :: s' => if isspace c then lstrip s' else s
  | [] => []
  end.

Definition rstrip (s : str) : str := rev (lstrip (rev s)).

(** [text.strip()] *)
Definition strip (s : str) : str := rstrip (lstrip s).

(** [sep.join(parts)] *)
Fixpoint join (sep : str) (parts : list str) : str :=
  match parts with
  | [] => []
  | [p] => p
  | p :: rest => p ++ sep ++ join sep rest
  end.

(* ================================================================== *)
(** ** The Unicode character database

    [str.isupper] and case-insensitive matching consult CPython's Unicode
    tables.  Their ASCII part is written out; the rest is a parameter of
    the development. *)

Record unicode_db := {
  (** [Py_UNICODE_TOLOWER] on code points above 127 *)
  lower_ext : N -> N;
  (** [Py_UNICODE_TOUPPER] on code points above 127 *)
  upper_ext : N -> N;
  (** [Py_UNICODE_ISUPPER] on code points above 127 *)
  isupper_ext : N -> bool;
  (** [sre_compile._ignorecase_fixes]: further characters that match a
      lower-cased character under IGNORECASE (empty when there is none) *)
  sre_fixes : N -> list N
}.

(** A database without cased characters outside ASCII, to run examples. *)
Definition ascii_db : unicode_db :=
  {| lower_ext := fun c => c; upper_ext := fun c => c;
     isupper_ext := fun _ => false; sre_fixes := fun _ => [] |}.

(** The letters of Deseret: capitals U+10400 to U+10427, each 40 below
    its small letter. *)
Definition deseret_db : unicode_db :=
  {| lower_ext := fun c => if (66560 <=? c) && (c <=? 66599) then c + 40 else c;
     upper_ext := fun c => if (66600 <=? c) && (c <=? 66639) then c - 40 else c;
     isupper_ext := fun c => (66560 <=? c) && (c <=? 66599);
     sre_fixes := fun _ => [] |}.

Section Unicode.
Variable U : unicode_db.

Definition unicode_tolower (c : N) : N :=
  if c <? 128 then (if (65 <=? c) && (c <=? 90) then c + 32 else c)
  else lower_ext U c.

Definition unicode_toupper (c : N) : N :=
  if c <? 128 then (if (97 <=? c) && (c <=? 122) then c - 32 else c)
  else upper_ext U c.

(** [_sre.unicode_iscased] *)
Definition unicode_iscased (c : N) : bool :=
  negb (c =? unicode_tolower c) || negb (c =? unicode_toupper c).

(** [t.isupper()] for a one-character string [t].  No white-space
    character is an uppercase letter. *)
Definition isupper (c : N) : bool :=
  if c <? 128 then (65 <=? c) && (c <=? 90)
  else if isspace c then false else isupper_ext U c.
End Unicode.

(* ================================================================== *)
(** ** re.escape and process_options *)

(** [re._special_chars_map]: the characters of
    [()[]{}?*+-|^$\.&~# \t\n\r\v\f]. *)
Definition special_chars : str :=
  [40; 41; 91; 93; 123; 125; 63; 42; 43; 45; 124; 94; 36; 92; 46; 38; 126; 35;
   32; 9; 10; 13; 11; 12].

Definition is_special (c : N) : bool := mem c special_chars.

Definition escape_char (c : N) : str := if is_special c then [92; c] else [c].

(** [re.escape(option)] *)
Definition re_escape (s : str) : str := flat_map escape_char s.

(** [process_options]: escape every option, join with ['|']. *)
Definition process_options (options : list str) : str :=
  let escaped_options := map re_escape options in
  let options_pattern := join [124] escaped_options in
  options_pattern.

(* ================================================================== *)
(** ** Regular expressions: the fragment of Python's [re] the patterns use *)

Inductive set_item :=
| CLit (c : N)      (* a character, plain or escaped *)
| CSpace.           (* \s inside a set *)

Inductive atom :=
| ALit (c : N)
| ASet (items : list set_item)   (* [...] *)
| AAny                           (* . *)
| ASpace                         (* \s *)
| ANotSpace.                     (* \S *)

Inductive quant := QOne | QOpt | QStar | QPlus | QLazyStar.

Inductive regex :=
| REps
| RAtom (q : quant) (a : atom)
| RBol                           (* ^ *)
| REol                           (* $ *)
| RSeq (r1 r2 : regex)
| RAlt (r1 r2 : regex)
| RGroup (n : nat) (r : regex).  (* the n-th capturing group *)

Record compiled := {
  re_ignorecase : bool;          (* the inline flag (?i) was seen *)
  re_groups : nat;               (* number of capturing groups *)
  re_body : regex
}.

(** *** Parsing a pattern string

    One pass over the pattern with an explicit stack of open groups.
    [None] stands for [re.error]; syntax the pattern templates of
    [ResponseParser] never produce (ranges and negation in sets,
    back-references, counted repetition, repetition of a group, ...) is
    rejected as well. *)

Inductive pmode :=
| MNormal
| MEsc                                   (* after a backslash *)
| MSetStart                              (* after [ *)
| MSet (items : list set_item)           (* inside [...] *)
| MSetEsc (items : list set_item)        (* after a backslash inside [...] *)
| MParen                                 (* after ( *)
| MParenQ                                (* after (? *)
| MParenQi.                              (* after (?i *)

Record frame := {
  f_group : option nat;      (* Some n: capturing group n; None: (?:...) *)
  f_alts : list regex;       (* finished alternatives, reversed *)
  f_seq : list regex         (* current sequence, reversed *)
}.

Record pstate := {
  p_stack : list frame;
  p_alts : list regex;
  p_seq : list regex;
  p_mode : pmode;
  p_groups : nat;
  p_icase : bool
}.

Fixpoint seq_of (rs : list regex) : regex :=
  match rs with
  | [] => REps
  | [r] => r
  | r :: rs' => RSeq r (seq_of rs')
  end.

Fixpoint alt_of (rs : list regex) : regex :=
  match rs with
  | [] => REps
  | [r] => r
  | r :: rs' => RAlt r (alt_of rs')
  end.

Definition close_alts (alts seq : list regex) : regex :=
  alt_of (rev (seq_of (rev seq) :: alts)).

Definition with_mode (st : pstate) (md : pmode) : pstate :=
  {| p_stack := p_stack st; p_alts := p_alts st; p_seq := p_seq st;
     p_mode := md; p_groups := p_groups st; p_icase := p_icase st |}.

Definition push_item (st : pstate) (r : regex) : pstate :=
  {| p_stack := p_stack st; p_alts := p_alts st; p_seq := r :: p_seq st;
     p_mode := MNormal; p_groups := p_groups st; p_icase := p_icase st |}.

Definition open_group (st : pstate) (capturing : bool) : pstate :=
  let n := if capturing then S (p_groups st) else p_groups st in
  {| p_stack := {| f_group := if capturing then Some n else None;
                   f_alts := p_alts st; f_seq := p_seq st |} :: p_stack st;
     p_alts := []; p_seq := []; p_mode := MNormal;
     p_groups := n; p_icase := p_icase st |}.

Definition close_group (st : pstate) : option pstate :=
  match p_stack st with
  | [] => None
  | f :: stack =>
      let inner := close_alts (p_alts st) (p_seq st) in
      let item := match f_group f with Some n => RGroup n inner | None => inner end in
      Some {| p_stack := stack; p_alts := f_alts f; p_seq := item :: f_seq f;
              p_mode := MNormal; p_groups := p_groups st; p_icase := p_icase st |}
  end.

Definition next_alt (st : pstate) : pstate :=
  {| p_stack := p_stack st; p_alts := seq_of (rev (p_seq st)) :: p_alts st;
     p_seq := []; p_mode := MNormal; p_groups := p_groups st;
     p_icase := p_icase st |}.

Definition requantify (c : N) (q : quant) : option quant :=
  match q with
  | QOne => Some (if c =? 63 then QOpt else if c =? 42 then QStar else QPlus)
  | QStar => if c =? 63 then Some QLazyStar else None
  | _ => None
  end.

Definition quantify (st : pstate) (c : N) : option pstate :=
  match p_seq st with
  | RAtom q a :: rest =>
      match requantify c q with
      | Some q' =>
          Some {| p_stack := p_stack st; p_alts := p_alts st;
                  p_seq := RAtom q' a :: rest; p_mode := MNormal;
                  p_groups := p_groups st; p_icase := p_icase st |}
      | None => None
      end
  | _ => None
  end.

Definition is_ascii_alnum (c : N) : bool :=
  ((48 <=? c) && (c <=? 57)) || ((65 <=? c) && (c <=? 90))
  || ((97 <=? c) && (c <=? 122)).

Definition step_normal (st : pstate) (c : N) : option pstate :=
  if c =? 92 then Some (with_mode st MEsc)                  (* \ *)
  else if c =? 91 then Some (with_mode st MSetStart)        (* [ *)
  else if c =? 40 then Some (with_mode st MParen)           (* ( *)
  else if c =? 41 then close_group st                       (* ) *)
  else if c =? 124 then Some (next_alt st)                  (* | *)
  else if (c =? 63) || (c =? 42) || (c =? 43) then quantify st c   (* ? * + *)
  else if c =? 94 then Some (push_item st RBol)             (* ^ *)
  else if c =? 36 then Some (push_item st REol)             (* $ *)
  else if c =? 46 then Some (push_item st (RAtom QOne AAny)) (* . *)
  else Some (push_item st (RAtom QOne (ALit c))).
  (* a brace is a literal unless it opens a counted repetition, which no
     template does *)

Definition step_esc (st : pstate) (c : N) : option pstate :=
  if c =? 115 then Some (push_item st (RAtom QOne ASpace))          (* \s *)
  else if c =? 83 then Some (push_item st (RAtom QOne ANotSpace))   (* \S *)
  else if is_ascii_alnum c then None
  else Some (push_item st (RAtom QOne (ALit c))).

Definition step_set (st : pstate) (items : list set_item) (c : N) : option pstate :=
  if c =? 93 then Some (push_item st (RAtom QOne (ASet items)))   (* ] *)
  else if c =? 92 then Some (with_mode st (MSetEsc items))
  else if c =? 45 then None                                            (* - *)
  else Some (with_mode st (MSet (items ++ [CLit c]))).

Definition step_set_esc (st : pstate) (items : list set_item) (c : N) : option pstate :=
  if c =? 115 then Some (with_mode st (MSet (items ++ [CSpace])))
  else if is_ascii_alnum c then None
  else Some (with_mode st (MSet (items ++ [CLit c]))).

Definition pstep (st : pstate) (c : N) : option pstate :=
  match p_mode st with
  | MNormal => step_normal st c
  | MEsc => step_esc st c
  | MSetStart =>
      if c =? 93 then Some (with_mode st (MSet [CLit 93]))   (* []...] *)
      else if c =? 94 then None                              (* [^...] *)
      else if c =? 92 then Some (with_mode st (MSetEsc []))
      else Some (with_mode st (MSet [CLit c]))
  | MSet items => step_set st items c
  | MSetEsc items => step_set_esc st items c
  | MParen =>
      if c =? 63 then Some (with_mode st MParenQ)
      else step_normal (open_group st true) c
  | MParenQ =>
      if c =? 58 then Some (open_group st false)             (* (?: *)
      else if c =? 105 then Some (with_mode st MParenQi)     (* (?i *)
      else None
  | MParenQi =>
      if c =? 41 then
        Some {| p_stack := p_stack st; p_alts := p_alts st; p_seq := p_seq st;
                p_mode := MNormal; p_groups := p_groups st; p_icase := true |}
      else None
  end.

Fixpoint prun (st : pstate) (s : str) : option pstate :=
  match s with
  | [] => Some st
  | c :: s' => match pstep st c with Some st' => prun st' s' | None => None end
  end.

Definition pinit : pstate :=
  {| p_stack := []; p_alts := []; p_seq := []; p_mode := MNormal;
     p_groups := 0; p_icase := false |}.

Definition pfinish (st : pstate) : option compiled :=
  match p_mode st, p_stack st with
  | MNormal, [] =>
      Some {| re_ignorecase := p_icase st; re_groups := p_groups st;
              re_body := close_alts (p_alts st) (p_seq st) |}
  | _, _ => None     (* unterminated set, missing parenthesis, ... *)
  end.

(** [re.compile(pattern)] *)
Definition re_compile (pattern : str) : option compiled :=
  match prun pinit pattern with
  | Some st => pfinish st
  | None => None
  end.

(** *** Matching

    A backtracking matcher in continuation-passing style, with the
    priorities of [re]: greedy repetition tries the longest run first,
    lazy repetition the shortest, an alternation its left branch first.
    It is generic in the type of text symbols and in the test of one
    symbol against an atom. *)

Section Matcher.
Variables T A : Type.
Variable test : atom -> T -> bool.
Variable is_nl : T -> bool.

Fixpoint greedy_star (a : atom) (pos : nat) (s : list T)
    (k : nat -> list T -> option A) : option A :=
  match s with
  | c :: s' =>
      if test a c then
        match greedy_star a (S pos) s' k with
        | Some x => Some x
        | None => k pos s
        end
      else k pos s
  | [] => k pos s
  end.

Fixpoint lazy_star (a : atom) (pos : nat) (s : list T)
    (k : nat -> list T -> option A) : option A :=
  match k pos s with
  | Some x => Some x
  | None =>
      match s with
      | c :: s' => if test a c then lazy_star a (S pos) s' k else None
      | [] => None
      end
  end.

(** [$] without MULTILINE: at the end, or before a final newline. *)
Definition at_eol (s : list T) : bool :=
  match s with
  | [] => true
  | [c] => is_nl c
  | _ => false
  end.

Definition match_atom (q : quant) (a : atom) (pos : nat) (s : list T)
    (k : nat -> list T -> option A) : option A :=
  match q with
  | QOne =>
      match s with
      | c :: s' => if test a c then k (S pos) s' else None
      | [] => None
      end
  | QOpt =>
      match s with
      | c :: s' =>
          if test a c then
            match k (S pos) s' with
            | Some x => Some x
            | None => k pos s
            end
          else k pos s
      | [] => k pos s
      end
  | QStar => greedy_star a pos s k
  | QPlus =>
      match s with
      | c :: s' => if test a c then greedy_star a (S pos) s' k else None
      | [] => None
      end
  | QLazyStar => lazy_star a pos s k
  end.

(** [cap] is the text of group 1, if it took part in the match so far. *)
Fixpoint rmatch (r : regex) (pos : nat) (s : list T) (cap : option (list T))
    (k : nat -> list T -> option (list T) -> option A) : option A :=
  match r with
  | REps => k pos s cap
  | RAtom q a => match_atom q a pos s (fun p' s' => k p' s' cap)
  | RBol => if Nat.eqb pos 0 then k pos s cap else None
  | REol => if at_eol s then k pos s cap else None
  | RSeq r1 r2 => rmatch r1 pos s cap (fun p' s' c' => rmatch r2 p' s' c' k)
  | RAlt r1 r2 =>
      match rmatch r1 pos s cap k with
      | Some x => Some x
      | None => rmatch r2 pos s cap k
      end
  | RGroup n r1 =>
      rmatch r1 pos s cap
        (fun p' s' c' =>
           k p' s' (if Nat.eqb n 1 then Some (firstn (p' - pos) s) else c'))
  end.
End Matcher.

Section Search.
Variable T : Type.
Variable test : atom -> T -> bool.
Variable is_nl : T -> bool.

(** A match: the text of group 0 and of group 1. *)
Definition match_at (r : regex) (pos : nat) (s : list T)
  : option (list T * option (list T)) :=
  rmatch test is_nl r pos s None
    (fun p' _ c => Some (firstn (p' - pos) s, c)).

(** The first position, from [pos] on, where the pattern matches. *)
Fixpoint search_from (r : regex) (pos : nat) (s : list T)
  : option (list T * option (list T)) :=
  match match_at r pos s with
  | Some x => Some x
  | None =>
      match s with
      | [] => None
      | _ :: s' => search_from r (S pos) s'
      end
  end.
End Search.

Definition set_item_eqb (a b : set_item) : bool :=
  match a, b with
  | CLit x, CLit y => x =? y
  | CSpace, CSpace => true
  | _, _ => false
  end.

Section Re.
Variable U : unicode_db.

Definition item_match (c : N) (it : set_item) : bool :=
  match it with
  | CLit l => c =? l
  | CSpace => isspace c
  end.

(** Case-sensitive test of one character. *)
Definition atom_match (dotall : bool) (a : atom) (c : N) : bool :=
  match a with
  | ALit l => c =? l
  | ASet items => existsb (item_match c) items
  | AAny => dotall || negb (c =? 10)
  | ASpace => isspace c
  | ANotSpace => negb (isspace c)
  end.

(** IGNORECASE on a [str] pattern, as [sre_compile] emits it.  A cased
    literal is compared lower-cased, with the extra equivalents of
    [_ignorecase_fixes]. *)
Definition lit_match_ci (l c : N) : bool :=
  if unicode_iscased U l then
    let lo := unicode_tolower U l in
    mem (unicode_tolower U c) (lo :: sre_fixes U lo)
  else c =? l.

(** [sre_parse._uniq]: the items of a set without repetitions. *)
Fixpoint uniq_items (seen items : list set_item) : list set_item :=
  match items with
  | [] => []
  | it :: rest =>
      if existsb (set_item_eqb it) seen then uniq_items seen rest
      else it :: uniq_items (it :: seen) rest
  end.

(** [sre_compile._optimize_charset] marks the lower-cased literal and its
    equivalents in a map of the code points below 65536.  The equivalents
    before one that falls outside the map are marked; the flag tells
    whether one fell outside. *)
Fixpoint marked_fixes (ks : list N) : list N * bool :=
  match ks with
  | [] => ([], false)
  | k :: ks' =>
      if 65536 <=? k then ([], true)
      else let (marked, outside) := marked_fixes ks' in (k :: marked, outside)
  end.

(** What a literal [l] of a set leaves in the compiled set: the marked
    code points, and [l] itself, as written, when the marking fell outside
    the map (a literal beyond the Basic Multilingual Plane); the flag
    tells whether it did. *)
Definition set_literal_ci (l : N) : list N * bool :=
  let lo := unicode_tolower U l in
  if 65536 <=? lo then ([l], true)
  else
    let (marked, outside) := marked_fixes (sre_fixes U lo) in
    (lo :: marked ++ (if outside then [l] else []), outside).

(** [hascased] of [_optimize_charset] *)
Definition set_hascased (items : list set_item) : bool :=
  existsb (fun it => match it with
                     | CLit l => snd (set_literal_ci l) || unicode_iscased U l
                     | CSpace => false
                     end) items.

Definition item_match_ci (c : N) (it : set_item) : bool :=
  match it with
  | CLit l => mem c (fst (set_literal_ci l))
  | CSpace => isspace c
  end.

(** A set of one literal is a literal to the parser ([sre_parse] replaces
    it when it reads the set, which makes no difference for a
    case-sensitive test); any other set is tested on the lower-cased
    character when [hascased] holds. *)
Definition atom_match_ci (dotall : bool) (a : atom) (c : N) : bool :=
  match a with
  | ALit l => lit_match_ci l c
  | ASet items =>
      match uniq_items [] items with
      | [CLit l] => lit_match_ci l c
      | items' =>
          let c' := if set_hascased items' then unicode_tolower U c else c in
          existsb (item_match_ci c') items'
      end
  | _ => atom_match dotall a c
  end.

Definition re_test (icase dotall : bool) : atom -> N -> bool :=
  if icase then atom_match_ci dotall else atom_match dotall.

Definition is_newline (c : N) : bool := c =? 10.

Inductive search_result :=
| SreError                                   (* re.error while compiling *)
| NoMatch                                    (* None *)
| Match (ngroups : nat) (g0 : str) (g1 : option str).

(** [re.search(pattern, text, flags)], [flags] being 0 or [re.DOTALL]. *)
Definition re_search (dotall : bool) (pattern text : str) : search_result :=
  match re_compile pattern with
  | None => SreError
  | Some c =>
      match search_from (re_test (re_ignorecase c) dotall) is_newline
              (re_body c) 0 text with
      | Some (g0, g1) => Match (re_groups c) g0 g1
      | None => NoMatch
      end
  end.
End Re.

(* ================================================================== *)
(** ** class ResponseParser *)

Inductive exn := re_error | IndexError | InvalidInputError.

(** What a call does: return a string, return [None], or raise. *)
Inductive outcome :=
| Return (s : str)
| ReturnNone
| Raise (e : exn).

Definition nonempty (s : str) : bool :=
  match s with [] => false | _ :: _ => true end.

Section ResponseParser.
Variable U : unicode_db.

(** [for t in text: if t.isupper() and (t in options): return t] *)
Fixpoint parse_first_capital (text : str) (options : list str) : outcome :=
  match text with
  | t :: text' =>
      if isupper U t && in_list [t] options then Return [t]
      else parse_first_capital text' options
  | [] => Return []
  end.

(** [for t in text[::-1]: ...] *)
Definition parse_last_capital (text : str) (options : list str) : outcome :=
  (fix loop (reversed : str) : outcome :=
     match reversed with
     | t :: rest =>
         if isupper U t && in_list [t] options then Return [t] else loop rest
     | [] => Return []
     end) (rev text).

(** [for i in options_concat: if i in outputs: return i] finds the first
    character of [options_concat] that occurs in [outputs]. *)
Definition first_contained (options_concat outputs : str) : option N :=
  find (fun i => mem i outputs) options_concat.

(** The body of [for pattern in patterns: ...] followed by [return '']. *)
Fixpoint cascade (options_concat : str) (patterns : list str) (text : str)
  : outcome :=
  match patterns with
  | [] => Return []
  | pattern :: patterns' =>
      let text := strip text in
      match re_search U true pattern text with
      | SreError => Raise re_error
      | NoMatch => cascade options_concat patterns' text
      | Match ngroups g0 g1 =>
          if Nat.eqb ngroups 0 then Raise IndexError
          else
            let outputs :=
              match g1 with
              | Some g => if nonempty g then g else g0
              | None => g0
              end in
            match first_contained options_concat outputs with
            | Some i => Return [i]
            | None => cascade options_concat patterns' text
            end
      end
  end.

Definition patterns_with_choices (options_concat : str) : list str :=
  [
    u"答案是?\s*([" ++ options_concat ++ u"])";
    u"答案是?\s*：\s*([" ++ options_concat ++ u"])";
    u"答案是?\s*:\s*([" ++ options_concat ++ u"])";
    u"答案选项应?该?是\s*([" ++ options_concat ++ u"])";
    u"答案选项应?该?为\s*([" ++ options_concat ++ u"])";
    u"答案应该?是\s*([" ++ options_concat ++ u"])";
    u"答案应该?选\s*([" ++ options_concat ++ u"])";
    u"答案选项为?\s*：\s*([" ++ options_concat ++ u"])";
    u"答案选项为?\s+\(?\*?\*?([" ++ options_concat ++ u"])\*?\*?\)?";
    u"答案选项是?\s*:\s*([" ++ options_concat ++ u"])";
    u"答案为\s*([" ++ options_concat ++ u"])";
    u"答案选\s*([" ++ options_concat ++ u"])";
    u"选择?\s*([" ++ options_concat ++ u"])";
    u"故选?\s*([" ++ options_concat ++ u"])"
     ++ u"只有选?项?\s?([" ++ options_concat ++ u"])\s?是?对";
    u"只有选?项?\s?([" ++ options_concat ++ u"])\s?是?错";
    u"只有选?项?\s?([" ++ options_concat ++ u"])\s?不?正确";
    u"只有选?项?\s?([" ++ options_concat ++ u"])\s?错误";
    u"说法不?对选?项?的?是\s?([" ++ options_concat ++ u"])";
    u"说法不?正确选?项?的?是\s?([" ++ options_concat ++ u"])";
    u"说法错误选?项?的?是\s?([" ++ options_concat ++ u"])";
    u"([" ++ options_concat ++ u"])\s?是正确的";
    u"([" ++ options_concat ++ u"])\s?是正确答案";
    u"选项\s?([" ++ options_concat ++ u"])\s?正确";
    u"所以答\s?([" ++ options_concat ++ u"])";
    u"所以\s?([" ++ options_concat ++ u"][.。$]?$)";
    u"所有\s?([" ++ options_concat ++ u"][.。$]?$)";
    u"[\s，：:,]([" ++ options_concat ++ u"])[。，,\.]?$";
    u"[\s，,：:][故即]([" ++ options_concat ++ u"])[。\.]?$";
    u"[\s，,：:]因此([" ++ options_concat ++ u"])[。\.]?$";
    u"[是为。]\s?([" ++ options_concat ++ u"])[。\.]?$";
    u"因此\s?([" ++ options_concat ++ u"])[。\.]?$";
    u"显然\s?([" ++ options_concat ++ u"])[。\.]?$";
    u"答案是\s?(\S+)(?:。|$)";
    u"答案应该是\s?(\S+)(?:。|$)";
    u"答案为\s?(\S+)(?:。|$)";
    u"(?i)ANSWER\s*:\s*([" ++ options_concat ++ u"])";
    u"[Tt]he answer is:?\s+\(?([" ++ options_concat ++ u"])\)?";
    u"[Tt]he answer is:?\s+\(?\*?\*?([" ++ options_concat ++ u"])\*?\*?\)?";
    u"[Tt]he answer is option:?\s+\(?([" ++ options_concat ++ u"])\)?";
    u"[Tt]he correct answer is:?\s+\(?([" ++ options_concat ++ u"])\)?";
    u"[Tt]he correct answer is option:?\s+\(?([" ++ options_concat ++ u"])\)?";
    u"[Tt]he correct answer is:?.*?boxed{([" ++ options_concat ++ u"])}";
    u"[Tt]he correct option is:?.*?boxed{([" ++ options_concat ++ u"])}";
    u"[Tt]he correct answer option is:?.*?boxed{([" ++ options_concat ++ u"])}";
    u"[Tt]he answer to the question is:?\s+\(?([" ++ options_concat ++ u"])\)?";
    u"^选项\s?([" ++ options_concat ++ u"])";
    u"^([" ++ options_concat ++ u"])\s?选?项";
    u"(\s|^)[" ++ options_concat ++ u"][\s。，,：:\.$]";
    u"1.\s?(.*?)$";
    u"1.\s?([" ++ options_concat ++ u"])[.。$]?$"
  ].

Definition cushion_patterns_with_choices (options_concat : str) : list str :=
  [ u"([" ++ options_concat ++ u"]):";
    u"([" ++ options_concat ++ u"])" ].

Definition parse_first_option_with_choices (text : str) (options : list str)
  : outcome :=
  let options_concat := process_options options in
  cascade options_concat (patterns_with_choices options_concat) text.

(** In the source the 14th entry is two adjacent literals without a comma
    between them, which Python concatenates into one pattern. *)
Definition patterns (options_concat : str) : list str :=
  [
    u"答案是?\s*([" ++ options_concat ++ u"])";
    u"答案是?\s*：\s*([" ++ options_concat ++ u"])";
    u"答案是?\s*:\s*([" ++ options_concat ++ u"])";
    u"答案选项应?该?是\s*([" ++ options_concat ++ u"])";
    u"答案选项应?该?为\s*([" ++ options_concat ++ u"])";
    u"答案应该?是\s*([" ++ options_concat ++ u"])";
    u"答案应该?选\s*([" ++ options_concat ++ u"])";
    u"答案选项为?\s*：\s*([" ++ options_concat ++ u"])";
    u"答案选项为?\s+\(?\*?\*?([" ++ options_concat ++ u"])\*?\*?\)?";
    u"答案选项是?\s*:\s*([" ++ options_concat ++ u"])";
    u"答案为\s*([" ++ options_concat ++ u"])";
    u"答案选\s*([" ++ options_concat ++ u"])";
    u"选择?\s*([" ++ options_concat ++ u"])";
    u"故选?\s*([" ++ options_concat ++ u"])"
     ++ u"只有选?项?\s?([" ++ options_concat ++ u"])\s?是?对";
    u"只有选?项?\s?([" ++ options_concat ++ u"])\s?是?错";
    u"只有选?项?\s?([" ++ options_concat ++ u"])\s?不?正确";
    u"只有选?项?\s?([" ++ options_concat ++ u"])\s?错误";
    u"说法不?对选?项?的?是\s?([" ++ options_concat ++ u"])";
    u"说法不?正确选?项?的?是\s?([" ++ options_concat ++ u"])";
    u"说法错误选?项?的?是\s?([" ++ options_concat ++ u"])";
    u"([" ++ options_concat ++ u"])\s?是正确的";
    u"([" ++ options_concat ++ u"])\s?是正确答案";
    u"选项\s?([" ++ options_concat ++ u"])\s?正确";
    u"所以答\s?([" ++ options_concat ++ u"])";
    u"所以\s?([" ++ options_concat ++ u"][.。$]?$)";
    u"所有\s?([" ++ options_concat ++ u"][.。$]?$)";
    u"[\s，：:,]([" ++ options_concat ++ u"])[。，,\.]?$";
    u"[\s，,：:][故即]([" ++ options_concat ++ u"])[。\.]?$";
    u"[\s，,：:]因此([" ++ options_concat ++ u"])[。\.]?$";
    u"[是为。]\s?([" ++ options_concat ++ u"])[。\.]?$";
    u"因此\s?([" ++ options_concat ++ u"])[。\.]?$";
    u"显然\s?([" ++ options_concat ++ u"])[。\.]?$";
    u"答案是\s?(\S+)(?:。|$)";
    u"答案应该是\s?(\S+)(?:。|$)";
    u"答案为\s?(\S+)(?:。|$)";
    u"(?i)ANSWER\s*:\s*([" ++ options_concat ++ u"])";
    u"[Tt]he answer is:?\s+\(?([" ++ options_concat ++ u"])\)?";
    u"[Tt]he answer is:?\s+\(?\*?\*?([" ++ options_concat ++ u"])\*?\*?\)?";
    u"[Tt]he answer is option:?\s+\(?([" ++ options_concat ++ u"])\)?";
    u"[Tt]he correct answer is:?\s+\(?([" ++ options_concat ++ u"])\)?";
    u"[Tt]he correct answer is option:?\s+\(?([" ++ options_concat ++ u"])\)?";
    u"[Tt]he correct answer is:?.*?boxed{([" ++ options_concat ++ u"])}";
    u"[Tt]he correct option is:?.*?boxed{([" ++ options_concat ++ u"])}";
    u"[Tt]he correct answer option is:?.*?boxed{([" ++ options_concat ++ u"])}";
    u"[Tt]he answer to the question is:?\s+\(?([" ++ options_concat ++ u"])\)?";
    u"^选项\s?([" ++ options_concat ++ u"])";
    u"^([" ++ options_concat ++ u"])\s?选?项";
    u"(\s|^)[" ++ options_concat ++ u"][\s。，,：:\.$]";
    u"1.\s?(.*?)$";
    u"1.\s?([" ++ options_concat ++ u"])[.。$]?$"
  ].

(** Defined by the source, and never used. *)
Definition cushion_patterns (options_concat : str) : list str :=
  [ u"([" ++ options_concat ++ u"]):";
    u"([" ++ options_concat ++ u"])" ].

Definition parse_first_option (text : str) (options : list str) : outcome :=
  let options_concat := process_options options in
  cascade options_concat (patterns options_concat) text.

Definition parse_bracketed_answer (text : str) (options : list str)
  : outcome :=
  let options := process_options options in
  match re_search U false (u"<(" ++ options ++ u")>") text with
  | SreError => Raise re_error
  | NoMatch => Return (u"No valid option found")
  | Match ngroups _ g1 =>
      if Nat.eqb ngroups 0 then Raise IndexError
      else match g1 with
           | Some g => Return g
           | None => ReturnNone
           end
  end.
End ResponseParser.

(** A character the capital-letter scans accept: uppercase, and an option
    as a one-character string. *)
Definition eligible (U : unicode_db) (options : list str) (c : N) : Prop :=
  isupper U c = true /\ In [c] options.

Definition ABCD : list str := [u"A"; u"B"; u"C"; u"D"].


(* ================================================================== *)
(** ** Devices of the proofs *)

(** The pieces of each pattern of [patterns] around its occurrences of
    [options_concat]: the pattern is [join options_concat pieces]. *)
Definition templates : list (list str) :=
  [
    [u"答案是?\s*(["; u"])"];
    [u"答案是?\s*：\s*(["; u"])"];
    [u"答案是?\s*:\s*(["; u"])"];
    [u"答案选项应?该?是\s*(["; u"])"];
    [u"答案选项应?该?为\s*(["; u"])"];
    [u"答案应该?是\s*(["; u"])"];
    [u"答案应该?选\s*(["; u"])"];
    [u"答案选项为?\s*：\s*(["; u"])"];
    [u"答案选项为?\s+\(?\*?\*?(["; u"])\*?\*?\)?"];
    [u"答案选项是?\s*:\s*(["; u"])"];
    [u"答案为\s*(["; u"])"];
    [u"答案选\s*(["; u"])"];
    [u"选择?\s*(["; u"])"];
    [u"故选?\s*(["; u"])" ++ u"只有选?项?\s?(["; u"])\s?是?对"];
    [u"只有选?项?\s?(["; u"])\s?是?错"];
    [u"只有选?项?\s?(["; u"])\s?不?正确"];
    [u"只有选?项?\s?(["; u"])\s?错误"];
    [u"说法不?对选?项?的?是\s?(["; u"])"];
    [u"说法不?正确选?项?的?是\s?(["; u"])"];
    [u"说法错误选?项?的?是\s?(["; u"])"];
    [u"(["; u"])\s?是正确的"];
    [u"(["; u"])\s?是正确答案"];
    [u"选项\s?(["; u"])\s?正确"];
    [u"所以答\s?(["; u"])"];
    [u"所以\s?(["; u"][.。$]?$)"];
    [u"所有\s?(["; u"][.。$]?$)"];
    [u"[\s，：:,](["; u"])[。，,\.]?$"];
    [u"[\s，,：:][故即](["; u"])[。\.]?$"];
    [u"[\s，,：:]因此(["; u"])[。\.]?$"];
    [u"[是为。]\s?(["; u"])[。\.]?$"];
    [u"因此\s?(["; u"])[。\.]?$"];
    [u"显然\s?(["; u"])[。\.]?$"];
    [u"答案是\s?(\S+)(?:。|$)"];
    [u"答案应该是\s?(\S+)(?:。|$)"];
    [u"答案为\s?(\S+)(?:。|$)"];
    [u"(?i)ANSWER\s*:\s*(["; u"])"];
    [u"[Tt]he answer is:?\s+\(?(["; u"])\)?"];
    [u"[Tt]he answer is:?\s+\(?\*?\*?(["; u"])\*?\*?\)?"];
    [u"[Tt]he answer is option:?\s+\(?(["; u"])\)?"];
    [u"[Tt]he correct answer is:?\s+\(?(["; u"])\)?"];
    [u"[Tt]he correct answer is option:?\s+\(?(["; u"])\)?"];
    [u"[Tt]he correct answer is:?.*?boxed{(["; u"])}"];
    [u"[Tt]he correct option is:?.*?boxed{(["; u"])}"];
    [u"[Tt]he correct answer option is:?.*?boxed{(["; u"])}"];
    [u"[Tt]he answer to the question is:?\s+\(?(["; u"])\)?"];
    [u"^选项\s?(["; u"])"];
    [u"^(["; u"])\s?选?项"];
    [u"(\s|^)["; u"][\s。，,：:\.$]"];
    [u"1.\s?(.*?)$"];
    [u"1.\s?(["; u"])[.。$]?$"]
  ].

(** Parsing a template whose holes all stand right after a [[]: the hole
    is filled with the set items [cls]. *)
Fixpoint prun_tpl (cls : list set_item) (st : pstate) (pieces : list str)
  : option pstate :=
  match pieces with
  | [] => Some st
  | piece :: rest =>
      match prun st piece with
      | None => None
      | Some st' =>
          match rest with
          | [] => Some st'
          | _ :: _ =>
              match p_mode st' with
              | MSetStart => prun_tpl cls (with_mode st' (MSet cls)) rest
              | _ => None
              end
          end
      end
  end.

Definition compile_tpl (cls : list set_item) (pieces : list str)
  : option compiled :=
  match prun_tpl cls pinit pieces with
  | Some st => pfinish st
  | None => None
  end.

(** The set items of [[options_concat]]: the characters of the options,
    and the ['|'] between them. *)
Definition class_of (options : list str) : list set_item :=
  map CLit (join [124] options).

(** *** Refuting a match on partly known text

    A text symbol is a known character or an unknown one ([None]); the
    test below answers [true] whenever the real test could.  The set with
    no item stands for a set of unknown content. *)

Definition abs_test (U : unicode_db) (icase dotall : bool) (a : atom)
    (x : option N) : bool :=
  match x with
  | None => true
  | Some c =>
      match a with
      | ASet [] => true
      | ASet _ => if icase then true else atom_match dotall a c
      | ALit l => if icase && unicode_iscased U l then true else c =? l
      | _ => atom_match dotall a c
      end
  end.

Definition abs_newline (x : option N) : bool :=
  match x with
  | None => true
  | Some c => c =? 10
  end.

(** [r'] is [r] with some sets forgotten. *)
Inductive approx : regex -> regex -> Prop :=
| approx_eps : approx REps REps
| approx_atom q a : approx (RAtom q a) (RAtom q a)
| approx_set q items : approx (RAtom q (ASet items)) (RAtom q (ASet []))
| approx_bol : approx RBol RBol
| approx_eol : approx REol REol
| approx_seq r1 r2 r1' r2' :
    approx r1 r1' -> approx r2 r2' -> approx (RSeq r1 r2) (RSeq r1' r2')
| approx_alt r1 r2 r1' r2' :
    approx r1 r1' -> approx r2 r2' -> approx (RAlt r1 r2) (RAlt r1' r2')
| approx_group n r r' : approx r r' -> approx (RGroup n r) (RGroup n r').

(** The partly known text [atext] describes [text]. *)
Definition describes (atext : list (option N)) (text : str) : Prop :=
  Forall2 (fun x c => x = None \/ x = Some c) atext text.

Definition abs_search (U : unicode_db) (icase dotall : bool) (r : regex)
    (pos : nat) (atext : list (option N)) : bool :=
  match search_from (abs_test U icase dotall) abs_newline r pos atext with
  | Some _ => true
  | None => false
  end.

Fixpoint items_eqb (a b : list set_item) : bool :=
  match a, b with
  | [], [] => true
  | x :: a', y :: b' => set_item_eqb x y && items_eqb a' b'
  | _, _ => false
  end.

Definition atom_eqb (a b : atom) : bool :=
  match a, b with
  | ALit x, ALit y => x =? y
  | ASet x, ASet y => items_eqb x y
  | AAny, AAny => true
  | ASpace, ASpace => true
  | ANotSpace, ANotSpace => true
  | _, _ => false
  end.

Definition quant_eqb (a b : quant) : bool :=
  match a, b with
  | QOne, QOne | QOpt, QOpt | QStar, QStar | QPlus, QPlus
  | QLazyStar, QLazyStar => true
  | _, _ => false
  end.

(** A decision procedure for [approx]. *)
Fixpoint approxb (r r' : regex) : bool :=
  match r, r' with
  | REps, REps => true
  | RAtom q a, RAtom q' a' =>
      quant_eqb q q' &&
      match a' with
      | ASet [] => match a with ASet _ => true | _ => false end
      | _ => atom_eqb a a'
      end
  | RBol, RBol => true
  | REol, REol => true
  | RSeq r1 r2, RSeq r1' r2' => approxb r1 r1' && approxb r2 r2'
  | RAlt r1 r2, RAlt r1' r2' => approxb r1 r1' && approxb r2 r2'
  | RGroup n r1, RGroup n' r1' => Nat.eqb n n' && approxb r1 r1'
  | _, _ => false
  end.

(** The template compiles, with the set items [cls] and with [cls'] in
    their place, the second regex approximates the first, and it matches
    at no position of the partly known text. *)
Definition refuted (U : unicode_db) (cls cls' : list set_item)
    (atext : list (option N)) (pieces : list str) : bool :=
  match compile_tpl cls pieces, compile_tpl cls' pieces with
  | Some c, Some c' =>
      approxb (re_body c) (re_body c')
      && negb (abs_search U (re_ignorecase c) true (re_body c') 0 atext)
  | _, _ => false
  end.

(** While the parser reads the body of a set: [items] have been read. *)
Definition in_set (st0 st : pstate) (items : list set_item) : Prop :=
  (items = [] /\ st = with_mode st0 MSetStart)
  \/ (items <> [] /\ st = with_mode st0 (MSet items)).

(** The regex of a literal character and of a literal string. *)
Definition lit (c : N) : regex := RAtom QOne (ALit c).
Definition lits (o : str) : regex := seq_of (map lit o).

(** The first [Some] among the images of a list. *)
Fixpoint first_some (A B : Type) (f : A -> option B) (l : list A) : option B :=
  match l with
  | [] => None
  | x :: l' => match f x with Some y => Some y | None => first_some f l' end
  end.

(** [<o>] *)
Definition bracketed (o : str) : str := [60] ++ o ++ [62].

(** The option of the leftmost bracketed occurrence of an option in the
    text: at each position, the options are tried in their order. *)
Fixpoint find_bracketed (options : list str) (text : str) : option str :=
  match find (fun o => prefixb (bracketed o) text) options with
  | Some o => Some o
  | None =>
      match text with
      | [] => None
      | _ :: text' => find_bracketed options text'
      end
  end.

(** [needle in hay] *)
Fixpoint contains (needle hay : str) : bool :=
  prefixb needle hay ||
  match hay with
  | [] => false
  | _ :: hay' => contains needle hay'
  end.

(** The regex of [<(o1|...|on)>]. *)
Definition bracketed_regex (options : list str) : regex :=
  RSeq (lit 60) (RSeq (RGroup 1 (alt_of (map lits options))) (lit 62)).

(** The approximating matcher fails at each of the first [n] positions
    from [pos] on. *)
Fixpoint abs_none_upto (U : unicode_db) (icase dotall : bool) (r : regex)
    (n pos : nat) (atext : list (option N)) : bool :=
  match n with
  | O => true
  | S n' =>
      match match_at (abs_test U icase dotall) abs_newline r pos atext with
      | Some _ => false
      | None =>
          match atext with
          | [] => false
          | _ :: atext' => abs_none_upto U icase dotall r n' (S pos) atext'
          end
      end
  end.

(* ================================================================== *)
(** * The other functions of utils.py *)

From Stdlib Require Import ZArith Permutation.

(** ** get_valid_list *)

Section ValidList.
Variable A : Type.
(** [==] on the elements *)
Variable eqb : A -> A -> bool.

(** [i in candidate_list] *)
Definition member (i : A) (candidate_list : list A) : bool :=
  existsb (eqb i) candidate_list.

(** [[i for i in input_list if i in candidate_list],
     [i for i in input_list if i not in candidate_list]] *)
Definition get_valid_list (input_list candidate_list : list A)
  : list A * list A :=
  (filter (fun i => member i candidate_list) input_list,
   filter (fun i => negb (member i candidate_list)) input_list).

(** [l] is [l'] with some elements left out, the others in their order. *)
Inductive subseq : list A -> list A -> Prop :=
| subseq_nil : subseq [] []
| subseq_skip x l l' : subseq l l' -> subseq l (x :: l')
| subseq_keep x l l' : subseq l l' -> subseq (x :: l) (x :: l').
End ValidList.

(** ** Further devices for ResponseParser *)

(** The template compiles, with the set items [cls], to a pattern with a
    capturing group. *)
Definition compiles_with_group (cls : list set_item) (pieces : list str) : bool :=
  match compile_tpl cls pieces with
  | Some c => negb (Nat.eqb (re_groups c) 0)
  | None => false
  end.

(** The option found by a search for the alternation of the options: at
    the leftmost position where an option begins, the first such option
    of the list. *)
Fixpoint find_option (options : list str) (text : str) : option str :=
  match find (fun o => prefixb o text) options with
  | Some o => Some o
  | None =>
      match text with
      | [] => None
      | _ :: text' => find_option options text'
      end
  end.

(** ** dict_torch_dtype_to_str *)

(** The objects a configuration dictionary holds: [None], a string, a
    dictionary (keys in insertion order), or any other object, given by
    the text [str()] makes of it ([torch.float32] by ["torch.float32"]).
    The dictionaries form a tree: no dictionary object is reached twice. *)
#[warnings="-register-all"]
Inductive value :=
| VNone
| VStr (s : str)
| VObj (text : str)
| VDict (items : list (str * value)).

Definition dict := list (str * value).

Inductive dtd_error := DIndexError | DRecursionError.

(** [d.get(key, None)] *)
Fixpoint dict_get (key : str) (d : dict) : option value :=
  match d with
  | [] => None
  | (k, v) :: d' => if str_eqb k key then Some v else dict_get key d'
  end.

(** [d[key] = v] for a key that is present *)
Fixpoint dict_set (key : str) (v : value) (d : dict) : dict :=
  match d with
  | [] => []
  | (k, x) :: d' =>
      if str_eqb k key then (k, v) :: d' else (k, x) :: dict_set key v d'
  end.

(** [s.split(sep)] for a separator of one character *)
Fixpoint split_on (sep : N) (s : str) : list str :=
  match s with
  | [] => [[]]
  | c :: s' =>
      if c =? sep then [] :: split_on sep s'
      else match split_on sep s' with
           | p :: ps => (c :: p) :: ps
           | [] => [[c]]
           end
  end.

Section TorchDtype.
(** [str(d)] of a dictionary *)
Variable dict_str : dict -> str.
(** The calls [str(x)] puts on the interpreter's stack, beside its
    caller: one or more for a [__str__] written in Python, none for a
    conversion implemented in C, as for [torch.dtype], in an interpreter
    that counts the calls of Python functions only.  The other built-in
    functions the body calls are taken to need none. *)
Variable str_frames : value -> nat.

(** [str(x)] *)
Definition py_str (x : value) : str :=
  match x with
  | VNone => u"None"
  | VStr s => s
  | VObj text => text
  | VDict items => dict_str items
  end.

(** The first statement, with [remaining] calls still allowed on the
    stack: when the entry is there, not [None] and not a string, it is
    replaced by [str(entry).split('.')[1]].  [str] raises RecursionError
    when it needs more calls than are left, the subscript raises
    IndexError; the dictionary is then as it was. *)
Definition convert_entry (remaining : nat) (d : dict) : dict + dtd_error :=
  match dict_get (u"torch_dtype") d with
  | None | Some VNone | Some (VStr _) => inl d
  | Some x =>
      if (remaining <? str_frames x)%nat then inr DRecursionError
      else
        match split_on 46 (py_str x) with
        | _ :: part :: _ => inl (dict_set (u"torch_dtype") (VStr part) d)
        | _ => inr DIndexError
        end
  end.

(** [for value in d.values(): if isinstance(value, dict): rec(value)].
    The result is the dictionary as the loop leaves it, and the exception
    that ended it, if any. *)
Fixpoint visit (rec : dict -> dict * option dtd_error) (d : dict)
  : dict * option dtd_error :=
  match d with
  | [] => ([], None)
  | (k, VDict inner) :: d' =>
      match rec inner with
      | (inner', Some e) => ((k, VDict inner') :: d', Some e)
      | (inner', None) =>
          let (d'', e) := visit rec d' in ((k, VDict inner') :: d'', e)
      end
  | (k, x) :: d' => let (d'', e) := visit rec d' in ((k, x) :: d'', e)
  end.

(** [limit] is the number of calls the interpreter still allows on the
    stack: with none left the call raises RecursionError; the call itself
    takes one, and what it calls has the rest.  The function changes [d]
    in place; the first component is [d] after the call. *)
Fixpoint dict_torch_dtype_to_str (limit : nat) (d : dict)
  : dict * option dtd_error :=
  match limit with
  | O => (d, Some DRecursionError)
  | S limit' =>
      match convert_entry limit' d with
      | inr e => (d, Some e)
      | inl d1 => visit (dict_torch_dtype_to_str limit') d1
      end
  end.


End TorchDtype.

(** The entry [torch_dtype] is absent, [None] or a string. *)
Definition dtype_done (d : dict) : Prop :=
  match dict_get (u"torch_dtype") d with
  | None | Some VNone | Some (VStr _) => True
  | _ => False
  end.

(** [dtype_done] in a dictionary and in the dictionaries nested in its
    values. *)
Fixpoint all_done (v : value) : Prop :=
  match v with
  | VDict items =>
      dtype_done items
      /\ (fix go (l : list (str * value)) : Prop :=
            match l with
            | [] => True
            | (_, x) :: l' => all_done x /\ go l'
            end) items
  | _ => True
  end.

(** A configuration to run the function on. *)
Definition example_config : dict :=
  [(u"name", VStr (u"m")); (u"torch_dtype", VObj (u"torch.float32"));
   (u"text_config", VDict [(u"torch_dtype", VObj (u"torch.bfloat16"));
                            (u"layers", VObj (u"12"))])].

(** ** gen_hash *)

(** [name.encode(encoding='UTF-8')]: [None] stands for UnicodeEncodeError,
    raised for a surrogate code point. *)
Definition utf8_encode_char (c : N) : option (list N) :=
  if c <? 128 then Some [c]
  else if c <? 2048 then Some [192 + c / 64; 128 + c mod 64]
  else if c <? 65536 then
    if (55296 <=? c) && (c <=? 57343) then None
    else Some [224 + c / 4096; 128 + (c / 64) mod 64; 128 + c mod 64]
  else Some [240 + (c / 262144) mod 8; 128 + (c / 4096) mod 64;
             128 + (c / 64) mod 64; 128 + c mod 64].

Fixpoint utf8_encode (s : str) : option (list N) :=
  match s with
  | [] => Some []
  | c :: s' =>
      match utf8_encode_char c, utf8_encode s' with
      | Some bs, Some rest => Some (bs ++ rest)
      | _, _ => None
      end
  end.

(** *** MD5 (RFC 1321), on words below 2^32 *)

Definition w32 (x : N) : N := x mod 4294967296.

Definition rotl32 (x : N) (s : N) : N :=
  w32 (N.lor (N.shiftl x s) (N.shiftr x (32 - s))).

Definition not32 (x : N) : N := N.lxor x 4294967295.

(** floor(2^32 * abs(sin(i + 1))) for i = 0 .. 63 *)
Definition md5_K : list N :=
  [3614090360; 3905402710; 606105819; 3250441966; 4118548399; 1200080426;
   2821735955; 4249261313; 1770035416; 2336552879; 4294925233; 2304563134;
   1804603682; 4254626195; 2792965006; 1236535329; 4129170786; 3225465664;
   643717713; 3921069994; 3593408605; 38016083; 3634488961; 3889429448;
   568446438; 3275163606; 4107603335; 1163531501; 2850285829; 4243563512;
   1735328473; 2368359562; 4294588738; 2272392833; 1839030562; 4259657740;
   2763975236; 1272893353; 4139469664; 3200236656; 681279174; 3936430074;
   3572445317; 76029189; 3654602809; 3873151461; 530742520; 3299628645;
   4096336452; 1126891415; 2878612391; 4237533241; 1700485571; 2399980690;
   4293915773; 2240044497; 1873313359; 4264355552; 2734768916; 1309151649;
   4149444226; 3174756917; 718787259; 3951481745].

Definition md5_shifts : list N :=
  [7; 12; 17; 22; 7; 12; 17; 22; 7; 12; 17; 22; 7; 12; 17; 22;
   5; 9; 14; 20; 5; 9; 14; 20; 5; 9; 14; 20; 5; 9; 14; 20;
   4; 11; 16; 23; 4; 11; 16; 23; 4; 11; 16; 23; 4; 11; 16; 23;
   6; 10; 15; 21; 6; 10; 15; 21; 6; 10; 15; 21; 6; 10; 15; 21].

Record md5_state := { md5_a : N; md5_b : N; md5_c : N; md5_d : N }.

Definition md5_init : md5_state :=
  {| md5_a := 1732584193; md5_b := 4023233417;
     md5_c := 2562383102; md5_d := 271733878 |}.

(** The [j]-th little-endian word of a block of 64 bytes. *)
Definition block_word (block : list N) (j : nat) : N :=
  nth (4 * j) block 0 + 256 * nth (4 * j + 1) block 0
  + 65536 * nth (4 * j + 2) block 0 + 16777216 * nth (4 * j + 3) block 0.

Definition md5_round (block : list N) (st : md5_state) (i : nat) : md5_state :=
  let a := md5_a st in let b := md5_b st in
  let c := md5_c st in let d := md5_d st in
  let (f, g) :=
    if (i <? 16)%nat then (N.lor (N.land b c) (N.land (not32 b) d), i)
    else if (i <? 32)%nat then
      (N.lor (N.land d b) (N.land (not32 d) c), ((5 * i + 1) mod 16)%nat)
    else if (i <? 48)%nat then
      (N.lxor b (N.lxor c d), ((3 * i + 5) mod 16)%nat)
    else (N.lxor c (N.lor b (not32 d)), ((7 * i) mod 16)%nat) in
  let f' := w32 (f + a + nth i md5_K 0 + block_word block g) in
  {| md5_a := d; md5_b := w32 (b + rotl32 f' (nth i md5_shifts 0));
     md5_c := b; md5_d := c |}.

Definition md5_compress (st : md5_state) (block : list N) : md5_state :=
  let st' := fold_left (md5_round block) (seq 0 64) st in
  {| md5_a := w32 (md5_a st + md5_a st'); md5_b := w32 (md5_b st + md5_b st');
     md5_c := w32 (md5_c st + md5_c st'); md5_d := w32 (md5_d st + md5_d st') |}.

(** Feeding bytes: [buf] holds, reversed, the [n] bytes of the block being
    filled. *)
Fixpoint md5_feed (st : md5_state) (buf : list N) (n : nat) (bytes : list N)
  : md5_state :=
  match bytes with
  | [] => st
  | b :: bytes' =>
      if Nat.eqb n 63 then md5_feed (md5_compress st (rev (b :: buf))) [] 0 bytes'
      else md5_feed st (b :: buf) (S n) bytes'
  end.

Definition le_bytes (count : nat) (x : N) : list N :=
  map (fun i => (x / 256 ^ N.of_nat i) mod 256) (seq 0 count).

(** The message, a 1 bit, zeros up to 56 modulo 64, the bit length. *)
Definition md5_pad (msg : list N) : list N :=
  let len := List.length msg in
  let zeros := ((55 + 64 - len mod 64) mod 64)%nat in
  msg ++ [128] ++ repeat 0 zeros ++ le_bytes 8 (N.of_nat len * 8).

(** [hashlib.md5(msg).digest()] *)
Definition md5 (msg : list N) : list N :=
  let st := md5_feed md5_init [] 0 (md5_pad msg) in
  flat_map (le_bytes 4) [md5_a st; md5_b st; md5_c st; md5_d st].

Definition hex_digit (n : N) : N :=
  nth (N.to_nat n) (u"0123456789abcdef") 0.

(** [.hexdigest()] *)
Definition hexdigest (bytes : list N) : str :=
  flat_map (fun b => [hex_digit (b / 16); hex_digit (b mod 16)]) bytes.

(** [s[:stop]] for an integer [stop] *)
Definition slice_to (stop : Z) (s : str) : str :=
  if (stop <? 0)%Z
  then firstn (Z.to_nat (Z.of_nat (List.length s) + stop)) s
  else firstn (Z.to_nat stop) s.

Inductive hash_result :=
| Hash (h : str)
| UnicodeEncodeError.

(** [hashlib.md5(name.encode(encoding='UTF-8')).hexdigest()[:bits]] *)
Definition gen_hash (name : str) (bits : Z) : hash_result :=
  match utf8_encode name with
  | None => UnicodeEncodeError
  | Some bytes => Hash (slice_to bits (hexdigest (md5 bytes)))
  end.

(** The default of [bits]. *)
Definition gen_hash_default_bits : Z := 32.

(** A surrogate code point. *)
Definition is_surrogate (c : N) : bool := (55296 <=? c) && (c <=? 57343).

(** ** get_latest_folder_path *)

(** The result: [None] (after the message is printed), the joined path,
    or the ValueError of [datetime.strptime]. *)
Inductive folder_result :=
| NoFolder
| Folder (path : str)
| ValueError.

(** [os.path.join(a, b)] of [posixpath] *)
Definition posix_join (a b : str) : str :=
  if prefixb [47] b then b
  else match rev a with
       | [] => b
       | c :: _ => if c =? 47 then a ++ b else a ++ [47] ++ b
       end.

Section LatestFolder.
(** [Py_UNICODE_ISDECIMAL] on code points above 127: what [\d] matches
    in a [str] pattern beside the ASCII digits *)
Variable is_decimal_ext : N -> bool.
(** [datetime], the ValueError of [datetime.strptime(name,
    '%Y%m%d_%H%M%S')] as [None], and [>] on [datetime] *)
Variable datetime : Type.
Variable strptime : str -> option datetime.
Variable dt_gt : datetime -> datetime -> bool.

Definition is_decimal (c : N) : bool :=
  if c <? 128 then (48 <=? c) && (c <=? 57) else is_decimal_ext c.

(** [n] decimal digits at the head of [s]; what follows them *)
Fixpoint take_digits (n : nat) (s : str) : option str :=
  match n with
  | O => Some s
  | S n' =>
      match s with
      | c :: s' => if is_decimal c then take_digits n' s' else None
      | [] => None
      end
  end.

(** [re.compile(r'^\d{8}_\d{6}$').match(f)]: the [$] also matches before
    a newline that ends the name. *)
Definition timestamp_match (f : str) : bool :=
  match take_digits 8 f with
  | Some (95 :: rest) =>
      match take_digits 6 rest with
      | Some [] => true
      | Some [10] => true
      | _ => false
      end
  | _ => false
  end.

(** [max(..., key=parse_timestamp)] after the first item: the key of each
    item is computed in turn, and an item replaces the best one when its
    key is greater.  [None] stands for ValueError. *)
Fixpoint max_by_timestamp (best : str) (best_key : datetime) (rest : list str)
  : option str :=
  match rest with
  | [] => Some best
  | f :: rest' =>
      match strptime f with
      | None => None
      | Some k =>
          if dt_gt k best_key then max_by_timestamp f k rest'
          else max_by_timestamp best best_key rest'
      end
  end.

(** [folders] is the list of the subdirectories of [work_dir], in the
    order of [os.listdir]. *)
Definition get_latest_folder_path (work_dir : str) (folders : list str)
  : folder_result :=
  let timestamped_folders := filter timestamp_match folders in
  match timestamped_folders with
  | [] => NoFolder
  | f :: rest =>
      match strptime f with
      | None => ValueError
      | Some k =>
          match max_by_timestamp f k rest with
          | None => ValueError
          | Some latest_folder => Folder (posix_join work_dir latest_folder)
          end
      end
  end.
End LatestFolder.

(** A stand-in for [strptime] to run examples: the digits of the name read
    as one number, without the checks of a calendar. *)
Definition digits_value (f : str) : option N :=
  fold_left (fun acc c =>
               match acc with
               | None => None
               | Some v =>
                   if c =? 95 then Some v
                   else if (48 <=? c) && (c <=? 57) then Some (10 * v + (c - 48))
                   else None
               end) f (Some 0).

Definition number_gt (a b : N) : bool := b <? a.

Definition example_folders : list str :=
  [u"20240101_120000"; u"cache"; u"20250309_080000"; u"20240630_235959"].
(* ================================================================== *)
(** * Properties *)

Unset Implicit Arguments.

(** ** Strings *)

Lemma str_eqb_eq (a b : str) : str_eqb a b = true <-> a = b.
Proof.
  revert b; induction a as [|x a IH]; intros [|y b]; simpl;
    try (split; [discriminate | discriminate]); [tauto|].
  rewrite andb_true_iff, N.eqb_eq, IH.
  split; [intros [-> ->]; reflexivity | intros H; inversion H; auto].
Qed.

Lemma in_list_In (t : str) (options : list str) :
  in_list t options = true <-> In t options.
Proof.
  unfold in_list. rewrite existsb_exists. split.
  - intros (x & Hx & E). apply str_eqb_eq in E. subst; assumption.
  - intros H. exists t. split; [assumption | apply str_eqb_eq; reflexivity].
Qed.

Lemma mem_In (c : N) (s : str) : mem c s = true <-> In c s.
Proof.
  unfold mem. rewrite existsb_exists. split.
  - intros (x & Hx & E). apply N.eqb_eq in E. subst; assumption.
  - intros H. exists c. split; [assumption | apply N.eqb_refl].
Qed.

Lemma lstrip_head (s : str) :
  match lstrip s with c :: _ => isspace c = false | [] => True end.
Proof.
  induction s as [|c s IH]; simpl; [exact I|].
  destruct (isspace c) eqn:E; [exact IH | exact E].
Qed.

Lemma lstrip_fix (s : str) :
  match s with c :: _ => isspace c = false | [] => True end -> lstrip s = s.
Proof. destruct s as [|c s]; simpl; [reflexivity | intros ->; reflexivity]. Qed.

Lemma lstrip_idem (s : str) : lstrip (lstrip s) = lstrip s.
Proof. apply lstrip_fix, lstrip_head. Qed.

Lemma lstrip_suffix (s : str) : exists w, s = w ++ lstrip s.
Proof.
  induction s as [|c s (w & IH)]; simpl; [exists []; reflexivity|].
  destruct (isspace c).
  - exists (c :: w). simpl. f_equal. exact IH.
  - exists []. reflexivity.
Qed.

Lemma rstrip_prefix (s : str) : exists w, s = rstrip s ++ w.
Proof.
  unfold rstrip. destruct (lstrip_suffix (rev s)) as (w & Hw).
  exists (rev w). rewrite <- rev_app_distr, <- Hw, rev_involutive. reflexivity.
Qed.

Lemma rstrip_idem (s : str) : rstrip (rstrip s) = rstrip s.
Proof. unfold rstrip. rewrite rev_involutive, lstrip_idem. reflexivity. Qed.

Lemma strip_idem (s : str) : strip (strip s) = strip s.
Proof.
  unfold strip.
  assert (H : lstrip (rstrip (lstrip s)) = rstrip (lstrip s)).
  { apply lstrip_fix.
    destruct (rstrip_prefix (lstrip s)) as (w & Hw).
    pose proof (lstrip_head s) as Hh.
    destruct (rstrip (lstrip s)) as [|c r]; [exact I|].
    rewrite Hw in Hh. exact Hh. }
  rewrite H. apply rstrip_idem.
Qed.

(** ** The capital-letter scans *)

Section Capitals.
Variable U : unicode_db.
Variable options : list str.

Lemma eligible_test (c : N) :
  isupper U c && in_list [c] options = true <-> eligible U options c.
Proof. unfold eligible. rewrite andb_true_iff, in_list_In. tauto. Qed.

Lemma first_capital_none (text : str) :
  (forall c, In c text -> ~ eligible U options c) ->
  parse_first_capital U text options = Return [].
Proof.
  induction text as [|t text IH]; intros H; simpl; [reflexivity|].
  destruct (isupper U t && in_list [t] options) eqn:E.
  - apply eligible_test in E. exfalso. apply (H t); [left; reflexivity | exact E].
  - apply IH. intros c Hc. apply H. right; exact Hc.
Qed.

Lemma first_capital_found (pre : str) (c : N) (post : str) :
  eligible U options c -> (forall d, In d pre -> ~ eligible U options d) ->
  parse_first_capital U (pre ++ c :: post) options = Return [c].
Proof.
  intros Hc. induction pre as [|t pre IH]; intros H; simpl.
  - apply eligible_test in Hc. rewrite Hc. reflexivity.
  - destruct (isupper U t && in_list [t] options) eqn:E.
    + apply eligible_test in E. exfalso. apply (H t); [left; reflexivity | exact E].
    + apply IH. intros d Hd. apply H. right; exact Hd.
Qed.

Lemma last_capital_rev (text : str) :
  parse_last_capital U text options = parse_first_capital U (rev text) options.
Proof.
  unfold parse_last_capital. generalize (rev text) as r.
  induction r as [|t r IH]; simpl; [reflexivity|]. rewrite IH. reflexivity.
Qed.
End Capitals.

(** C5: with a non-empty options list, [parse_first_capital] returns the
    leftmost and [parse_last_capital] the rightmost character of the text
    that is uppercase and, as a one-character string, an option; both
    return the empty string when the text has no such character. *)
Theorem capital_scans_correct (U : unicode_db) (options : list str) (text : str) :
  options <> [] ->
  ((forall c, In c text -> ~ eligible U options c) ->
     parse_first_capital U text options = Return [] /\
     parse_last_capital U text options = Return [])
  /\ (forall pre c post,
        text = pre ++ c :: post -> eligible U options c ->
        (forall d, In d pre -> ~ eligible U options d) ->
        parse_first_capital U text options = Return [c])
  /\ (forall pre c post,
        text = pre ++ c :: post -> eligible U options c ->
        (forall d, In d post -> ~ eligible U options d) ->
        parse_last_capital U text options = Return [c]).
Proof.
  intros _. repeat split.
  - apply first_capital_none; assumption.
  - rewrite last_capital_rev. apply first_capital_none.
    intros c Hc. apply H. apply in_rev. exact Hc.
  - intros pre c post -> Hc Hpre. apply first_capital_found; assumption.
  - intros pre c post -> Hc Hpost. rewrite last_capital_rev.
    rewrite rev_app_distr. simpl. rewrite <- app_assoc. simpl.
    apply first_capital_found; [assumption|].
    intros d Hd. apply Hpost. apply in_rev. exact Hd.
Qed.

Lemma capital_scans_witness :
  ABCD <> [] /\
  parse_first_capital ascii_db (u"xAyBz") ABCD = Return (u"A") /\
  parse_last_capital ascii_db (u"xAyBz") ABCD = Return (u"B").
Proof.
  assert (Hne : ABCD <> []) by discriminate.
  pose proof (capital_scans_correct ascii_db ABCD (u"xAyBz") Hne) as (_ & Hf & Hl).
  split; [exact Hne|]. split.
  - apply (Hf (u"x") (ch "A") (u"yBz")); [reflexivity | |].
    + split; [reflexivity | vm_compute; auto].
    + intros d [<-|[]]. intros [E _]. vm_compute in E. discriminate.
  - apply (Hl (u"xAy") (ch "B") (u"z")); [reflexivity | |].
    + split; [reflexivity | vm_compute; auto].
    + intros d [<-|[]]. intros [E _]. vm_compute in E. discriminate.
Defined.

(** ** The cascade *)

Lemma cascade_strip (U : unicode_db) (oc : str) (ps : list str) (text : str) :
  cascade U oc ps (strip text) = cascade U oc ps text.
Proof.
  destruct ps as [|p ps]; [reflexivity|].
  cbn [cascade]. rewrite strip_idem. reflexivity.
Qed.

(** C9: trimming is absorbed.  [parse_first_option] on a text and on the
    stripped text agree (with any options list, as results and as
    exceptions), since the loop strips the text before each rule and
    [strip] is idempotent. *)
Theorem parse_first_option_strip (U : unicode_db) (options : list str) (text : str) :
  parse_first_option U text options = parse_first_option U (strip text) options.
Proof. unfold parse_first_option. symmetry. apply cascade_strip. Qed.

Lemma patterns_same (oc : str) : patterns_with_choices oc = patterns oc.
Proof. unfold patterns_with_choices, patterns. reflexivity. Qed.

(** C10: [parse_first_option_with_choices] and [parse_first_option] are
    the same function: same pattern list, same loop. *)
Theorem with_choices_same (U : unicode_db) (text : str) (options : list str) :
  parse_first_option_with_choices U text options = parse_first_option U text options.
Proof.
  unfold parse_first_option_with_choices, parse_first_option.
  rewrite patterns_same. reflexivity.
Qed.

(** ** The parser on escaped options *)

Lemma prun_app (st : pstate) (a b : str) :
  prun st (a ++ b) =
  match prun st a with Some st' => prun st' b | None => None end.
Proof.
  revert st; induction a as [|c a IH]; intros st; simpl; [reflexivity|].
  destruct (pstep st c); [apply IH | reflexivity].
Qed.

Lemma special_cases (c : N) :
  is_special c = true -> (c =? 115) = false /\ is_ascii_alnum c = false.
Proof.
  unfold is_special, mem, special_chars. simpl.
  repeat rewrite orb_true_iff.
  intros H.
  repeat (destruct H as [H|H];
          [apply N.eqb_eq in H; subst c; split; reflexivity|]).
  discriminate H.
Qed.

Lemma plain_cases (c : N) :
  is_special c = false ->
  (c =? 93) = false /\ (c =? 94) = false /\ (c =? 92) = false /\ (c =? 45) = false.
Proof.
  intros H. repeat split.
  all: destruct (N.eqb_spec c 93) as [->|]; try discriminate H;
       destruct (N.eqb_spec c 94) as [->|]; try discriminate H;
       destruct (N.eqb_spec c 92) as [->|]; try discriminate H;
       destruct (N.eqb_spec c 45) as [->|]; try discriminate H; reflexivity.
Qed.

Lemma in_set_plain (st0 st : pstate) (items : list set_item) (c : N) :
  in_set st0 st items ->
  (c =? 93) = false -> (c =? 94) = false -> (c =? 92) = false -> (c =? 45) = false ->
  exists st', pstep st c = Some st' /\ in_set st0 st' (items ++ [CLit c]).
Proof.
  intros [[-> ->]|[Hne ->]] H93 H94 H92 H45.
  - exists (with_mode st0 (MSet [CLit c])). split.
    + unfold pstep; simpl. rewrite H93, H94, H92. reflexivity.
    + right. split; [discriminate | reflexivity].
  - exists (with_mode st0 (MSet (items ++ [CLit c]))). split.
    + unfold pstep; simpl. unfold step_set. rewrite H93, H92, H45. reflexivity.
    + right. split; [|reflexivity]. destruct items; discriminate.
Qed.

Lemma in_set_escaped (st0 st : pstate) (items : list set_item) (c : N) :
  in_set st0 st items -> is_special c = true ->
  exists st', prun st [92; c] = Some st' /\ in_set st0 st' (items ++ [CLit c]).
Proof.
  intros Hin Hc. destruct (special_cases c Hc) as [Hs Ha].
  exists (with_mode st0 (MSet (items ++ [CLit c]))). split.
  - destruct Hin as [[-> ->]|[Hne ->]]; simpl; unfold pstep; simpl;
      unfold step_set_esc; rewrite Hs, Ha; reflexivity.
  - right. split; [|reflexivity]. destruct items; discriminate.
Qed.

Lemma in_set_escape_char (st0 st : pstate) (items : list set_item) (c : N) :
  in_set st0 st items ->
  exists st', prun st (escape_char c) = Some st' /\ in_set st0 st' (items ++ [CLit c]).
Proof.
  intros Hin. unfold escape_char. destruct (is_special c) eqn:E.
  - apply in_set_escaped; assumption.
  - destruct (plain_cases c E) as (H93 & H94 & H92 & H45).
    destruct (in_set_plain st0 st items c Hin H93 H94 H92 H45) as (st' & Hs & Hin').
    exists st'. split; [|assumption]. simpl. rewrite Hs. reflexivity.
Qed.

Lemma in_set_escape (w : str) (st0 st : pstate) (items : list set_item) :
  in_set st0 st items ->
  exists st', prun st (re_escape w) = Some st' /\ in_set st0 st' (items ++ map CLit w).
Proof.
  revert st items. induction w as [|c w IH]; intros st items Hin.
  - exists st. rewrite app_nil_r. split; [reflexivity | assumption].
  - unfold re_escape. simpl flat_map. rewrite prun_app.
    destruct (in_set_escape_char st0 st items c Hin) as (st1 & H1 & Hin1). rewrite H1.
    destruct (IH st1 _ Hin1) as (st2 & H2 & Hin2).
    exists st2. split; [exact H2|]. simpl map.
    rewrite <- app_assoc in Hin2. exact Hin2.
Qed.

Lemma in_set_options (options : list str) (st0 st : pstate) (items : list set_item) :
  in_set st0 st items ->
  exists st', prun st (process_options options) = Some st'
              /\ in_set st0 st' (items ++ class_of options).
Proof.
  unfold process_options, class_of.
  revert st items. induction options as [|o rest IH]; intros st items Hin.
  - exists st. simpl. rewrite app_nil_r. split; [reflexivity | assumption].
  - destruct rest as [|o' rest].
    + simpl. apply in_set_escape. assumption.
    + change (join [124] (map re_escape (o :: o' :: rest)))
        with (re_escape o ++ [124] ++ join [124] (map re_escape (o' :: rest))).
      change (join [124] (o :: o' :: rest))
        with (o ++ [124] ++ join [124] (o' :: rest)).
      rewrite prun_app.
      destruct (in_set_escape o st0 st items Hin) as (st1 & H1 & Hin1). rewrite H1.
      rewrite prun_app.
      destruct (in_set_plain st0 st1 _ 124 Hin1) as (st2 & H2 & Hin2); try reflexivity.
      simpl prun at 1. rewrite H2.
      destruct (IH st2 _ Hin2) as (st3 & H3 & Hin3).
      exists st3. split; [exact H3|].
      rewrite !map_app. simpl map at 2.
      rewrite <- !app_assoc in Hin3. exact Hin3.
Qed.

Lemma process_options_nonempty (options : list str) :
  process_options options <> [] -> class_of options <> [].
Proof.
  unfold process_options, class_of.
  destruct options as [|o [|o' rest]]; simpl.
  - congruence.
  - destruct o; simpl; [congruence | discriminate].
  - intros _. destruct o; discriminate.
Qed.

Lemma prun_options_set (options : list str) (st : pstate) :
  p_mode st = MSetStart -> process_options options <> [] ->
  prun st (process_options options)
  = Some (with_mode st (MSet (class_of options))).
Proof.
  intros Hm Hne.
  assert (Hin : in_set st st []).
  { left. split; [reflexivity|]. destruct st; simpl in *; subst; reflexivity. }
  destruct (in_set_options options st st [] Hin) as (st' & Hrun & [[E _]|[_ ->]]).
  - exfalso. apply (process_options_nonempty options Hne). exact E.
  - exact Hrun.
Qed.

Lemma prun_tpl_sound (options : list str) :
  process_options options <> [] ->
  forall pieces st st',
    prun_tpl (class_of options) st pieces = Some st' ->
    prun st (join (process_options options) pieces) = Some st'.
Proof.
  intros Hne. induction pieces as [|piece rest IH]; intros st st' H.
  - exact H.
  - destruct rest as [|piece' rest].
    + simpl in *. destruct (prun st piece); [exact H | discriminate].
    + change (join (process_options options) (piece :: piece' :: rest))
        with (piece ++ process_options options
                ++ join (process_options options) (piece' :: rest)).
      cbn [prun_tpl] in H. rewrite prun_app.
      destruct (prun st piece) as [st1|]; [|discriminate].
      destruct (p_mode st1) eqn:Hm; try discriminate.
      rewrite prun_app, (prun_options_set options st1 Hm Hne).
      apply IH. exact H.
Qed.

Lemma compile_tpl_sound (options : list str) (pieces : list str) (c : compiled) :
  process_options options <> [] ->
  compile_tpl (class_of options) pieces = Some c ->
  re_compile (join (process_options options) pieces) = Some c.
Proof.
  unfold compile_tpl, re_compile. intros Hne H.
  destruct (prun_tpl (class_of options) pinit pieces) as [st|] eqn:E;
    [|discriminate].
  rewrite (prun_tpl_sound options Hne pieces pinit st E). exact H.
Qed.

(** ** Refuting matches *)

Lemma set_item_eqb_eq (a b : set_item) : set_item_eqb a b = true -> a = b.
Proof.
  destruct a, b; simpl; try discriminate; [|reflexivity].
  intros H. apply N.eqb_eq in H. subst. reflexivity.
Qed.

Lemma items_eqb_eq (a b : list set_item) : items_eqb a b = true -> a = b.
Proof.
  revert b; induction a as [|x a IH]; intros [|y b]; simpl; try discriminate;
    [reflexivity|].
  rewrite andb_true_iff. intros [H1 H2].
  apply set_item_eqb_eq in H1. apply IH in H2. subst. reflexivity.
Qed.

Lemma atom_eqb_eq (a b : atom) : atom_eqb a b = true -> a = b.
Proof.
  destruct a, b; simpl; try discriminate; try reflexivity.
  - intros H. apply N.eqb_eq in H. subst. reflexivity.
  - intros H. apply items_eqb_eq in H. subst. reflexivity.
Qed.

Lemma quant_eqb_eq (a b : quant) : quant_eqb a b = true -> a = b.
Proof. destruct a, b; simpl; try discriminate; reflexivity. Qed.

Lemma approxb_sound (r r' : regex) : approxb r r' = true -> approx r r'.
Proof.
  revert r'. induction r as [|q a| | |r1 IH1 r2 IH2|r1 IH1 r2 IH2|n r IH];
    intros [|q' a'| | |r1' r2'|r1' r2'|n' r']; simpl; try discriminate.
  - constructor.
  - rewrite andb_true_iff. intros [Hq Ha].
    apply quant_eqb_eq in Hq. subst q'.
    destruct a' as [l'|[|i' items']| | |].
    2:{ destruct a; try discriminate. constructor. }
    all: apply atom_eqb_eq in Ha; subst a; constructor.
  - constructor.
  - constructor.
  - rewrite andb_true_iff. intros [H1 H2]. constructor; auto.
  - rewrite andb_true_iff. intros [H1 H2]. constructor; auto.
  - rewrite andb_true_iff. intros [H1 H2].
    apply Nat.eqb_eq in H1. subst n'. constructor; auto.
Qed.

Section Refute.
Variable U : unicode_db.
Variables icase dotall : bool.

Let ctest := re_test U icase dotall.
Let atest := abs_test U icase dotall.

Lemma abs_test_sound (a : atom) (x : option N) (c : N) :
  x = None \/ x = Some c -> ctest a c = true -> atest a x = true.
Proof.
  intros [->| ->]; [reflexivity|].
  unfold ctest, atest, re_test, abs_test.
  destruct icase; simpl.
  - destruct a as [l|[|i items]| | |]; simpl; try reflexivity; try (intros H; exact H).
    unfold lit_match_ci. destruct (unicode_iscased U l); [reflexivity|].
    intros H; exact H.
  - destruct a as [l|[|i items]| | |]; simpl; try reflexivity; intros H; exact H.
Qed.

Lemma abs_test_top (x : option N) : atest (ASet []) x = true.
Proof. destruct x; reflexivity. Qed.

Section Atom.
Variables a a' : atom.
Hypothesis le : forall x c, x = None \/ x = Some c ->
                            ctest a c = true -> atest a' x = true.
Variables A B : Type.
Variable k : nat -> str -> option A.
Variable k' : nat -> list (option N) -> option B.
Hypothesis krel : forall p s' s, describes s' s -> k' p s' = None -> k p s = None.

Lemma greedy_star_refute (s' : list (option N)) (s : str) :
  describes s' s -> forall pos,
  greedy_star atest a' pos s' k' = None -> greedy_star ctest a pos s k = None.
Proof.
  induction 1 as [|x c s' s Hxc Hrest IH]; intros pos; simpl.
  - apply krel. constructor.
  - assert (Hd : describes (x :: s') (c :: s)) by (constructor; assumption).
    destruct (atest a' x) eqn:Ea.
    + destruct (greedy_star atest a' (S pos) s' k') eqn:Eg; [discriminate|].
      intros Hk. destruct (ctest a c).
      * rewrite (IH _ Eg). apply (krel _ _ _ Hd Hk).
      * apply (krel _ _ _ Hd Hk).
    + intros Hk. destruct (ctest a c) eqn:Ec.
      * rewrite (le x c Hxc Ec) in Ea. discriminate.
      * apply (krel _ _ _ Hd Hk).
Qed.

Lemma lazy_star_refute (s' : list (option N)) (s : str) :
  describes s' s -> forall pos,
  lazy_star atest a' pos s' k' = None -> lazy_star ctest a pos s k = None.
Proof.
  induction 1 as [|x c s' s Hxc Hrest IH]; intros pos; simpl.
  - destruct (k' pos []) eqn:Ek; [discriminate|]. intros _.
    rewrite (krel pos [] [] (Forall2_nil _) Ek). reflexivity.
  - assert (Hd : describes (x :: s') (c :: s)) by (constructor; assumption).
    destruct (k' pos (x :: s')) eqn:Ek; [discriminate|].
    rewrite (krel _ _ _ Hd Ek).
    destruct (ctest a c) eqn:Ec; [|reflexivity].
    rewrite (le x c Hxc Ec). apply IH.
Qed.

Lemma match_atom_refute (q : quant) (s' : list (option N)) (s : str) (pos : nat) :
  describes s' s ->
  match_atom atest q a' pos s' k' = None -> match_atom ctest q a pos s k = None.
Proof.
  intros Hd. destruct q; simpl.
  - destruct Hd as [|x c t' t Hxc Hrest]; [reflexivity|].
    destruct (ctest a c) eqn:Ec; [|reflexivity].
    rewrite (le x c Hxc Ec). apply krel. exact Hrest.
  - destruct Hd as [|x c t' t Hxc Hrest].
    + apply krel. constructor.
    + assert (Hd : describes (x :: t') (c :: t)) by (constructor; assumption).
      destruct (ctest a c) eqn:Ec.
      * rewrite (le x c Hxc Ec).
        destruct (k' (S pos) t') eqn:Ek; [discriminate|]. intros Hk.
        rewrite (krel _ _ _ Hrest Ek). apply (krel _ _ _ Hd Hk).
      * destruct (atest a' x).
        -- destruct (k' (S pos) t'); [discriminate|]. apply (krel _ _ _ Hd).
        -- apply (krel _ _ _ Hd).
  - apply greedy_star_refute. exact Hd.
  - destruct Hd as [|x c t' t Hxc Hrest]; [reflexivity|].
    destruct (ctest a c) eqn:Ec; [|reflexivity].
    rewrite (le x c Hxc Ec). apply greedy_star_refute. exact Hrest.
  - apply lazy_star_refute. exact Hd.
Qed.
End Atom.

Lemma at_eol_sound (s' : list (option N)) (s : str) :
  describes s' s -> at_eol is_newline s = true -> at_eol abs_newline s' = true.
Proof.
  intros Hd. destruct Hd as [|x c t' t Hxc Hrest]; [reflexivity|].
  destruct Hrest; simpl; [|discriminate].
  destruct Hxc as [->| ->]; [reflexivity | intros H; exact H].
Qed.

Lemma rmatch_refute (r r' : regex) :
  approx r r' ->
  forall (A B : Type)
         (k : nat -> str -> option str -> option A)
         (k' : nat -> list (option N) -> option (list (option N)) -> option B),
    (forall p s' s c' c, describes s' s -> k' p s' c' = None -> k p s c = None) ->
    forall pos s' s cap' cap,
      describes s' s ->
      rmatch atest abs_newline r' pos s' cap' k' = None ->
      rmatch ctest is_newline r pos s cap k = None.
Proof.
  induction 1 as [|q a|q items| | |r1 r2 r1' r2' _ IH1 _ IH2
                  |r1 r2 r1' r2' _ IH1 _ IH2|n r r' _ IH];
    intros A B k k' krel pos s' s cap' cap Hd; simpl.
  - apply krel. exact Hd.
  - apply (match_atom_refute a a (abs_test_sound a)); [|exact Hd].
    intros p t' t Ht. apply krel. exact Ht.
  - apply (match_atom_refute (ASet items) (ASet [])); [| |exact Hd].
    + intros x c _ _. apply abs_test_top.
    + intros p t' t Ht. apply krel. exact Ht.
  - destruct (Nat.eqb pos 0); [apply krel; exact Hd | reflexivity].
  - destruct (at_eol is_newline s) eqn:E; [|reflexivity].
    rewrite (at_eol_sound s' s Hd E). apply krel. exact Hd.
  - apply IH1; [|exact Hd].
    intros p t' t c' c Ht. apply IH2; [exact krel | exact Ht].
  - destruct (rmatch atest abs_newline r1' pos s' cap' k') eqn:E1; [discriminate|].
    intros E2. rewrite (IH1 A B k k' krel pos s' s cap' cap Hd E1).
    apply (IH2 A B k k' krel pos s' s cap' cap Hd E2).
  - apply IH; [|exact Hd].
    intros p t' t c' c Ht. apply krel. exact Ht.
Qed.

Lemma match_at_refute (r r' : regex) (pos : nat) (s' : list (option N)) (s : str) :
  approx r r' -> describes s' s ->
  match_at atest abs_newline r' pos s' = None ->
  match_at ctest is_newline r pos s = None.
Proof.
  intros Ha Hd. unfold match_at.
  apply (rmatch_refute r r' Ha); [|exact Hd].
  intros p t' t c' c _. discriminate.
Qed.

Lemma search_from_refute (r r' : regex) (s' : list (option N)) (s : str) :
  approx r r' -> describes s' s -> forall pos,
  search_from atest abs_newline r' pos s' = None ->
  search_from ctest is_newline r pos s = None.
Proof.
  intros Ha. induction 1 as [|x c s' s Hxc Hrest IH]; intros pos; simpl.
  - destruct (match_at atest abs_newline r' pos []) eqn:E; [discriminate|].
    rewrite (match_at_refute r r' pos [] [] Ha (Forall2_nil _) E). reflexivity.
  - destruct (match_at atest abs_newline r' pos (x :: s')) eqn:E; [discriminate|].
    rewrite (match_at_refute r r' pos (x :: s') (c :: s) Ha
               (Forall2_cons _ _ Hxc Hrest) E).
    apply IH.
Qed.
End Refute.

Lemma describes_known (text : str) : describes (map Some text) text.
Proof. induction text; constructor; auto. Qed.

Lemma refuted_sound (U : unicode_db) (options : list str) (cls' : list set_item)
    (atext : list (option N)) (text : str) (pieces : list str) :
  process_options options <> [] ->
  describes atext text ->
  refuted U (class_of options) cls' atext pieces = true ->
  re_search U true (join (process_options options) pieces) text = NoMatch.
Proof.
  intros Hne Hd. unfold refuted.
  destruct (compile_tpl (class_of options) pieces) as [c|] eqn:Ec; [|discriminate].
  destruct (compile_tpl cls' pieces) as [c'|]; [|discriminate].
  rewrite andb_true_iff, negb_true_iff. intros [Ha Hs].
  apply approxb_sound in Ha. unfold abs_search in Hs.
  unfold re_search. rewrite (compile_tpl_sound options pieces c Hne Ec).
  destruct (search_from (abs_test U (re_ignorecase c) true) abs_newline
              (re_body c') 0 atext) eqn:E; [discriminate|].
  rewrite (search_from_refute U (re_ignorecase c) true (re_body c) (re_body c')
             atext text Ha Hd 0 E).
  reflexivity.
Qed.

(** ** The cascade: rules that do not match *)

Lemma cascade_nomatch (U : unicode_db) (oc p : str) (ps : list str) (text : str) :
  re_search U true p (strip text) = NoMatch ->
  cascade U oc (p :: ps) text = cascade U oc ps (strip text).
Proof. intros H. cbn [cascade]. rewrite H. reflexivity. Qed.

Lemma cascade_compile_error (U : unicode_db) (oc p : str) (ps : list str) (text : str) :
  re_compile p = None -> cascade U oc (p :: ps) text = Raise re_error.
Proof. intros H. cbn [cascade]. unfold re_search. rewrite H. reflexivity. Qed.

Lemma cascade_refuted (U : unicode_db) (options : list str) (cls' : list set_item)
    (atext : list (option N)) (tpls : list (list str)) (text : str) :
  process_options options <> [] ->
  describes atext (strip text) ->
  forallb (refuted U (class_of options) cls' atext) tpls = true ->
  cascade U (process_options options) (map (join (process_options options)) tpls) text
  = Return [].
Proof.
  intros Hne. revert text. induction tpls as [|t tpls IH]; intros text Hd; simpl map.
  - reflexivity.
  - cbn [forallb]. rewrite andb_true_iff. intros [H1 H2].
    rewrite cascade_nomatch.
    + apply IH; [rewrite strip_idem; exact Hd | exact H2].
    + apply (refuted_sound U options cls' atext); assumption.
Qed.

Lemma patterns_templates (oc : str) : patterns oc = map (join oc) templates.
Proof. unfold patterns, templates. cbn [map join]. reflexivity. Qed.

(** C8: neither cushion pattern is tried.  With the options A, B, C, D:
    on the text ["xA:y"] no rule of the cascade matches and
    [parse_first_option] returns the empty string, although the first
    cushion pattern (a label and a colon) matches ["A:"] there; on the
    bare label ["A"] no rule matches and the result is the empty string,
    although the second cushion pattern (a label alone) matches it. *)
Theorem bare_label_not_found (U : unicode_db) :
  (parse_first_option U (u"xA:y") ABCD = Return []
   /\ re_search U true (nth 0 (cushion_patterns (process_options ABCD)) []) (u"xA:y")
      = Match 1 (u"A:") (Some (u"A")))
  /\ (parse_first_option U (u"A") ABCD = Return []
      /\ re_search U true (nth 1 (cushion_patterns (process_options ABCD)) []) (u"A")
         = Match 1 (u"A") (Some (u"A"))).
Proof.
  split; split.
  - unfold parse_first_option. rewrite patterns_templates.
    apply (cascade_refuted U ABCD (class_of ABCD) (map Some (strip (u"xA:y")))).
    + discriminate.
    + apply describes_known.
    + vm_compute. reflexivity.
  - vm_compute. reflexivity.
  - unfold parse_first_option. rewrite patterns_templates.
    apply (cascade_refuted U ABCD (class_of ABCD) (map Some (strip (u"A")))).
    + discriminate.
    + apply describes_known.
    + vm_compute. reflexivity.
  - vm_compute. reflexivity.
Qed.

(** C4 (the code departs from it): the rule for "only option X is right"
    is glued to the rule before it, so on the text of that phrasing, for
    each of the labels A, B, C, D, no rule matches and the result is the
    empty string, not the label. *)
Theorem only_option_rule_lost (U : unicode_db) :
  Forall (fun X => parse_first_option U (u"只有选项" ++ X ++ u"是对") ABCD = Return [])
         ABCD.
Proof.
  repeat constructor;
    unfold parse_first_option; rewrite patterns_templates;
    match goal with
    | |- cascade _ _ _ ?text = _ =>
        apply (cascade_refuted U ABCD (class_of ABCD) (map Some (strip text)));
          [discriminate | apply describes_known | vm_compute; reflexivity]
    end.
Qed.

(** What the loop can give: the empty string, one character of
    [options_concat], or an exception of [re.search] or [match.group]. *)
Lemma cascade_result (U : unicode_db) (oc : str) (ps : list str) :
  forall text,
    cascade U oc ps text = Return []
    \/ (exists i, In i oc /\ cascade U oc ps text = Return [i])
    \/ cascade U oc ps text = Raise re_error
    \/ cascade U oc ps text = Raise IndexError.
Proof.
  induction ps as [|p ps IH]; intros text; [left; reflexivity|].
  cbn [cascade].
  destruct (re_search U true p (strip text)) as [| |n g0 g1]; auto.
  destruct (Nat.eqb n 0); auto.
  destruct (first_contained oc _) as [i|] eqn:E; [|apply IH].
  right; left. exists i. split; [|reflexivity].
  apply find_some in E. exact (proj1 E).
Qed.

(** The end-to-end examples of the documentation. *)
Example answer_colon_upper :
  parse_first_option ascii_db (u"Context .... ANSWER: A") ABCD = Return (u"A").
Proof. vm_compute. reflexivity. Qed.

Example answer_colon_lower :
  parse_first_option ascii_db (u"answer: A") ABCD = Return (u"A").
Proof. vm_compute. reflexivity. Qed.

Example bracketed_found :
  parse_bracketed_answer ascii_db (u"<A>") [u"A"; u"B"] = Return (u"A").
Proof. vm_compute. reflexivity. Qed.

Example bracketed_not_found :
  parse_bracketed_answer ascii_db (u"no brackets here") [u"A"; u"B"]
  = Return (u"No valid option found").
Proof. vm_compute. reflexivity. Qed.

(** C1 (the code departs from it): the separator of [process_options] is
    a member of every set [[options_concat]] and of the string the result
    is picked from, so the result need not be an option. *)
Theorem first_option_not_an_option (U : unicode_db) :
  parse_first_option U (u"答案是|") [u"A"; u"B"] = Return (u"|")
  /\ ~ In (u"|") [u"A"; u"B"].
Proof.
  split.
  - vm_compute. reflexivity.
  - vm_compute. intros [H|[H|[]]]; discriminate H.
Qed.

(** ** The bracketed pattern *)

Lemma special_not_S (c : N) : is_special c = true -> (c =? 83) = false.
Proof.
  unfold is_special, mem, special_chars. simpl.
  repeat rewrite orb_true_iff. intros H.
  repeat (destruct H as [H|H]; [apply N.eqb_eq in H; subst c; reflexivity|]).
  discriminate H.
Qed.

Lemma step_normal_plain (st : pstate) (c : N) :
  is_special c = false -> step_normal st c = Some (push_item st (lit c)).
Proof.
  intros H. unfold step_normal.
  destruct (N.eqb_spec c 92) as [->|_]; [discriminate H|].
  destruct (N.eqb_spec c 91) as [->|_]; [discriminate H|].
  destruct (N.eqb_spec c 40) as [->|_]; [discriminate H|].
  destruct (N.eqb_spec c 41) as [->|_]; [discriminate H|].
  destruct (N.eqb_spec c 124) as [->|_]; [discriminate H|].
  destruct (N.eqb_spec c 63) as [->|_]; [discriminate H|].
  destruct (N.eqb_spec c 42) as [->|_]; [discriminate H|].
  destruct (N.eqb_spec c 43) as [->|_]; [discriminate H|].
  destruct (N.eqb_spec c 94) as [->|_]; [discriminate H|].
  destruct (N.eqb_spec c 36) as [->|_]; [discriminate H|].
  destruct (N.eqb_spec c 46) as [->|_]; [discriminate H|].
  reflexivity.
Qed.

Lemma prun_escape_char_normal (st : pstate) (c : N) :
  p_mode st = MNormal ->
  prun st (escape_char c) = Some (push_item st (lit c)).
Proof.
  intros Hm. unfold escape_char. destruct (is_special c) eqn:E.
  - destruct (special_cases c E) as [Hs Ha]. pose proof (special_not_S c E) as HS.
    simpl. unfold pstep. rewrite Hm. simpl.
    unfold step_esc. rewrite Hs, HS, Ha. reflexivity.
  - simpl. unfold pstep. rewrite Hm. rewrite (step_normal_plain st c E). reflexivity.
Qed.

(** Outside a set, an escaped option is read as its characters, one
    literal each. *)
Lemma prun_escape_normal (o : str) (st : pstate) :
  p_mode st = MNormal ->
  prun st (re_escape o)
  = Some {| p_stack := p_stack st; p_alts := p_alts st;
            p_seq := rev (map lit o) ++ p_seq st; p_mode := MNormal;
            p_groups := p_groups st; p_icase := p_icase st |}.
Proof.
  revert st. induction o as [|c o IH]; intros st Hm.
  - simpl. destruct st; simpl in *; subst; reflexivity.
  - unfold re_escape. simpl flat_map. rewrite prun_app.
    rewrite (prun_escape_char_normal st c Hm).
    change (flat_map escape_char o) with (re_escape o).
    rewrite IH by reflexivity. simpl. rewrite <- app_assoc. reflexivity.
Qed.

Lemma prun_options_normal (options : list str) :
  options <> [] ->
  forall st, p_mode st = MNormal -> p_seq st = [] ->
  exists alts seq,
    prun st (process_options options)
    = Some {| p_stack := p_stack st; p_alts := alts; p_seq := seq;
              p_mode := MNormal; p_groups := p_groups st;
              p_icase := p_icase st |}
    /\ close_alts alts seq = alt_of (rev (p_alts st) ++ map lits options).
Proof.
  unfold process_options.
  induction options as [|o rest IH]; intros Hne st Hm Hs; [congruence|].
  destruct rest as [|o' rest].
  - exists (p_alts st), (rev (map lit o) ++ p_seq st). split.
    + simpl. apply prun_escape_normal. exact Hm.
    + unfold close_alts. rewrite Hs, app_nil_r, rev_involutive. reflexivity.
  - change (join [124] (map re_escape (o :: o' :: rest)))
      with (re_escape o ++ [124] ++ join [124] (map re_escape (o' :: rest))).
    rewrite prun_app, (prun_escape_normal o st Hm), prun_app.
    simpl prun at 1.
    set (st2 := next_alt _).
    destruct (IH ltac:(discriminate) st2 eq_refl eq_refl) as (alts & seq & Hrun & Hclose).
    exists alts, seq. split; [exact Hrun|].
    rewrite Hclose. subst st2. simpl p_alts. rewrite Hs, app_nil_r, rev_involutive.
    simpl rev. rewrite <- app_assoc. reflexivity.
Qed.

Lemma options_head (options : list str) :
  hd 0 (process_options options ++ [41; 62]) <> 63.
Proof.
  unfold process_options.
  destruct options as [|[|c o] rest]; simpl.
  - discriminate.
  - destruct rest; simpl; discriminate.
  - assert (H : forall t, hd 0 (escape_char c ++ t) <> 63).
    { intros t. unfold escape_char. destruct (is_special c) eqn:E; simpl.
      - discriminate.
      - intros ->. discriminate E. }
    destruct rest; simpl; rewrite <- ?app_assoc; apply H.
Qed.

Lemma compile_bracketed (options : list str) :
  options <> [] ->
  re_compile (u"<(" ++ process_options options ++ u")>")
  = Some {| re_ignorecase := false; re_groups := 1;
            re_body := RSeq (lit 60)
                         (RSeq (RGroup 1 (alt_of (map lits options))) (lit 62)) |}.
Proof.
  intros Hne. unfold re_compile.
  change (u"<(") with [60; 40]. change (u")>") with [41; 62].
  rewrite prun_app.
  change (prun pinit [60; 40]) with (Some (with_mode (push_item pinit (lit 60)) MParen)).
  cbv beta match.
  set (st1 := with_mode _ MParen).
  assert (Hskip : prun st1 (process_options options ++ [41; 62])
                  = prun (open_group st1 true) (process_options options ++ [41; 62])).
  { pose proof (options_head options) as Hh.
    destruct (process_options options ++ [41; 62]) as [|c s] eqn:E;
      [destruct (process_options options); discriminate E|].
    simpl in Hh. simpl. unfold pstep at 1. simpl p_mode.
    destruct (N.eqb_spec c 63) as [->|_]; [congruence | reflexivity]. }
  rewrite Hskip, prun_app.
  destruct (prun_options_normal options Hne (open_group st1 true) eq_refl eq_refl)
    as (alts & seq & Hrun & Hclose).
  rewrite Hrun. simpl. unfold pfinish. simpl.
  simpl in Hclose. rewrite Hclose. reflexivity.
Qed.

Lemma prefixb_split (o s : str) :
  prefixb o s = true -> s = o ++ skipn (List.length o) s.
Proof.
  revert s; induction o as [|c o IH]; intros [|x s]; simpl; try discriminate;
    try reflexivity.
  rewrite andb_true_iff, N.eqb_eq. intros [-> H]. f_equal. apply IH. exact H.
Qed.

Lemma prefixb_app (a b s : str) :
  prefixb (a ++ b) s = prefixb a s && prefixb b (skipn (List.length a) s).
Proof.
  revert s; induction a as [|c a IH]; intros s; simpl; [reflexivity|].
  destruct s as [|x s]; simpl.
  - destruct b; reflexivity.
  - rewrite IH, andb_assoc. reflexivity.
Qed.

Lemma prefixb_firstn (o s : str) :
  prefixb o s = true -> firstn (List.length o) s = o.
Proof.
  intros H. rewrite (prefixb_split o s H) at 1.
  rewrite firstn_app, Nat.sub_diag, firstn_all. simpl. apply app_nil_r.
Qed.

Lemma find_none_all (A : Type) (P : A -> bool) (l : list A) :
  (forall x, P x = false) -> find P l = None.
Proof.
  intros H. induction l as [|x l IH]; simpl; [reflexivity|]. rewrite H. exact IH.
Qed.

Lemma first_some_find (A B : Type) (g : A -> option B) (P : A -> bool)
    (F : A -> B) (l : list A) :
  (forall x, g x = if P x then Some (F x) else None) ->
  first_some g l = option_map F (find P l).
Proof.
  intros H. induction l as [|x l IH]; simpl; [reflexivity|].
  rewrite H. destruct (P x); [reflexivity | exact IH].
Qed.

Section Bracketed.
Variable U : unicode_db.

Let test := re_test U false false.

Lemma rmatch_seq_of_cons (A : Type) (r : regex) (rs : list regex) (pos : nat)
    (s : str) (cap : option str) (k : nat -> str -> option str -> option A) :
  rmatch test is_newline (seq_of (r :: rs)) pos s cap k
  = rmatch test is_newline r pos s cap
      (fun p' s' c' => rmatch test is_newline (seq_of rs) p' s' c' k).
Proof. destruct rs; reflexivity. Qed.

Lemma rmatch_lits (A : Type) (o : str) :
  forall (pos : nat) (s : str) (cap : option str)
         (k : nat -> str -> option str -> option A),
    rmatch test is_newline (lits o) pos s cap k
    = if prefixb o s then k (pos + List.length o)%nat (skipn (List.length o) s) cap
      else None.
Proof.
  induction o as [|c o IH]; intros pos s cap k.
  - simpl. rewrite Nat.add_0_r. reflexivity.
  - unfold lits. simpl map. rewrite rmatch_seq_of_cons.
    destruct s as [|x s']; [reflexivity|].
    cbn [rmatch lit match_atom prefixb List.length skipn].
    change (test (ALit c) x) with (x =? c). rewrite (N.eqb_sym c x).
    destruct (x =? c); [|reflexivity].
    fold (lits o). rewrite IH. rewrite Nat.add_succ_r. reflexivity.
Qed.

Lemma rmatch_alt_of_lits (A : Type) (options : list str) :
  options <> [] ->
  forall (pos : nat) (s : str) (cap : option str)
         (k : nat -> str -> option str -> option A),
    rmatch test is_newline (alt_of (map lits options)) pos s cap k
    = first_some
        (fun o => if prefixb o s
                  then k (pos + List.length o)%nat (skipn (List.length o) s) cap
                  else None) options.
Proof.
  induction options as [|o rest IH]; intros Hne pos s cap k; [congruence|].
  destruct rest as [|o' rest].
  - simpl. rewrite rmatch_lits.
    destruct (prefixb o s); [|reflexivity].
    destruct (k _ _ _); reflexivity.
  - change (alt_of (map lits (o :: o' :: rest)))
      with (RAlt (lits o) (alt_of (map lits (o' :: rest)))).
    cbn [rmatch first_some]. rewrite rmatch_lits, IH by discriminate.
    reflexivity.
Qed.

Lemma match_at_bracketed (options : list str) (pos : nat) (s : str) :
  options <> [] ->
  match_at test is_newline (bracketed_regex options) pos s
  = option_map (fun o => (bracketed o, Some o))
      (find (fun o => prefixb (bracketed o) s) options).
Proof.
  intros Hne. unfold match_at, bracketed_regex.
  destruct s as [|x s'].
  - rewrite find_none_all by reflexivity. reflexivity.
  - cbn [rmatch lit match_atom].
    change (test (ALit 60) x) with (x =? 60).
    destruct (N.eqb_spec x 60) as [->|Hx].
    + rewrite rmatch_alt_of_lits by exact Hne.
      apply first_some_find. intros o.
      unfold bracketed. cbn [app prefixb]. rewrite N.eqb_refl. cbn [andb].
      rewrite prefixb_app.
      destruct (prefixb o s') eqn:Eo; [|reflexivity]. cbn [andb].
      pose proof (prefixb_split o s' Eo) as Hs.
      pose proof (prefixb_firstn o s' Eo) as Hf.
      destruct (skipn (List.length o) s') as [|y t] eqn:Et; [reflexivity|].
      cbn [prefixb]. change (test (ALit 62) y) with (y =? 62).
      rewrite (N.eqb_sym 62 y), andb_true_r.
      destruct (N.eqb_spec y 62) as [->|Hy]; [|reflexivity].
      simpl Nat.eqb. cbv beta iota.
      replace (S pos + List.length o - S pos)%nat with (List.length o) by lia.
      replace (S (S pos + List.length o) - pos)%nat with (S (List.length o + 1)) by lia.
      rewrite Hf. cbn [firstn]. rewrite Hs at 1.
      rewrite firstn_app, firstn_all2 by lia.
      replace (List.length o + 1 - List.length o)%nat with 1%nat by lia.
      reflexivity.
    + rewrite find_none_all; [reflexivity|].
      intros o. unfold bracketed. cbn [app prefixb].
      destruct (N.eqb_spec 60 x) as [E|_]; [congruence | reflexivity].
Qed.

Lemma search_from_bracketed (options : list str) (s : str) :
  options <> [] -> forall pos,
  search_from test is_newline (bracketed_regex options) pos s
  = option_map (fun o => (bracketed o, Some o)) (find_bracketed options s).
Proof.
  intros Hne. induction s as [|x s IH]; intros pos; cbn [search_from find_bracketed];
    rewrite match_at_bracketed by exact Hne;
    destruct (find _ _); try reflexivity.
  apply IH.
Qed.

Lemma parse_bracketed_spec (options : list str) (text : str) :
  options <> [] ->
  parse_bracketed_answer U text options
  = match find_bracketed options text with
    | Some o => Return o
    | None => Return (u"No valid option found")
    end.
Proof.
  intros Hne. unfold parse_bracketed_answer, re_search.
  rewrite compile_bracketed by exact Hne. cbn [re_ignorecase re_body re_groups].
  fold (bracketed_regex options). fold test.
  rewrite search_from_bracketed by exact Hne.
  destruct (find_bracketed options text); reflexivity.
Qed.
End Bracketed.

Lemma find_none_in (A : Type) (P : A -> bool) (l : list A) :
  (forall x, In x l -> P x = false) -> find P l = None.
Proof.
  induction l as [|x l IH]; intros H; simpl; [reflexivity|].
  rewrite (H x (or_introl eq_refl)). apply IH. intros y Hy. apply H. right; exact Hy.
Qed.

Lemma find_bracketed_eq (options : list str) (text : str) :
  find_bracketed options text
  = match find (fun o => prefixb (bracketed o) text) options with
    | Some o => Some o
    | None => match text with
              | [] => None
              | _ :: text' => find_bracketed options text'
              end
    end.
Proof. destruct text; reflexivity. Qed.

Lemma find_bracketed_none (options : list str) (text : str) :
  (forall p o, In o options -> prefixb (bracketed o) (skipn p text) = false) ->
  find_bracketed options text = None.
Proof.
  induction text as [|c text IH]; intros H; rewrite find_bracketed_eq.
  - rewrite find_none_in; [reflexivity|]. intros o Ho. apply (H 0%nat o Ho).
  - rewrite find_none_in.
    + apply IH. intros p o Ho. apply (H (S p) o Ho).
    + intros o Ho. apply (H 0%nat o Ho).
Qed.

Lemma find_bracketed_first (options : list str) (p : nat) :
  forall text,
    (exists o, In o options /\ prefixb (bracketed o) (skipn p text) = true) ->
    (forall q o, (q < p)%nat -> In o options ->
                 prefixb (bracketed o) (skipn q text) = false) ->
    exists o, In o options /\ prefixb (bracketed o) (skipn p text) = true
              /\ find_bracketed options text = Some o.
Proof.
  induction p as [|p IH]; intros text (o & Ho & Hp) Hbefore;
    rewrite find_bracketed_eq.
  - simpl skipn in *.
    destruct (find (fun o => prefixb (bracketed o) text) options) as [o'|] eqn:E.
    + apply find_some in E. destruct E as [Hin Hpre].
      exists o'. repeat split; assumption.
    + rewrite (find_none _ _ E o Ho) in Hp. discriminate Hp.
  - rewrite find_none_in.
    2:{ intros o' Ho'. apply (Hbefore 0%nat o'); [lia | exact Ho']. }
    destruct text as [|c text]; [discriminate Hp|].
    apply IH.
    + exists o. split; assumption.
    + intros q o' Hq Ho'. apply (Hbefore (S q) o'); [lia | exact Ho'].
Qed.

(** C6: with a non-empty options list, [parse_bracketed_answer] returns
    the option of the leftmost place of the text where some option stands
    between angle brackets, and the sentinel, which is not the empty
    string, when there is no such place. *)
Theorem bracketed_answer_correct (U : unicode_db) (options : list str) (text : str) :
  options <> [] ->
  u"No valid option found" <> []
  /\ ((forall p o, In o options -> prefixb (bracketed o) (skipn p text) = false) ->
      parse_bracketed_answer U text options = Return (u"No valid option found"))
  /\ (forall p,
        (exists o, In o options /\ prefixb (bracketed o) (skipn p text) = true) ->
        (forall q o, (q < p)%nat -> In o options ->
                     prefixb (bracketed o) (skipn q text) = false) ->
        exists o, In o options /\ prefixb (bracketed o) (skipn p text) = true
                  /\ parse_bracketed_answer U text options = Return o).
Proof.
  intros Hne. split; [discriminate|]. split.
  - intros H. rewrite parse_bracketed_spec by exact Hne.
    rewrite (find_bracketed_none options text H). reflexivity.
  - intros p Hex Hbefore.
    destruct (find_bracketed_first options p text Hex Hbefore) as (o & Ho & Hp & Hf).
    exists o. repeat split; try assumption.
    rewrite parse_bracketed_spec by exact Hne. rewrite Hf. reflexivity.
Qed.

Lemma bracketed_answer_witness :
  [u"A"; u"B"] <> []
  /\ exists o, In o [u"A"; u"B"]
               /\ prefixb (bracketed o) (skipn 2 (u"x <B> <A>")) = true
               /\ parse_bracketed_answer ascii_db (u"x <B> <A>") [u"A"; u"B"]
                  = Return o.
Proof.
  assert (Hne : [u"A"; u"B"] <> []) by discriminate.
  split; [exact Hne|].
  apply (proj2 (proj2 (bracketed_answer_correct ascii_db [u"A"; u"B"]
                         (u"x <B> <A>") Hne)) 2%nat).
  - exists (u"B"). split; [right; left; reflexivity | reflexivity].
  - intros q o Hq [<-|[<-|[]]];
      (destruct q as [|[|q]]; [reflexivity | reflexivity | lia]).
Defined.

(** ** Empty options *)

Lemma first_capital_no_options (U : unicode_db) (text : str) :
  parse_first_capital U text [] = Return [].
Proof.
  induction text as [|t text IH]; simpl; [reflexivity|].
  rewrite andb_false_r. exact IH.
Qed.

Lemma find_bracketed_empty_label (text : str) :
  find_bracketed [[]] text = if contains (u"<>") text then Some [] else None.
Proof.
  induction text as [|c text IH]; [reflexivity|].
  rewrite find_bracketed_eq. cbn [find contains].
  change (bracketed []) with (u"<>").
  destruct (prefixb (u"<>") (c :: text)); [reflexivity|].
  rewrite IH. reflexivity.
Qed.

(** C2, as the code has it: no function checks for an empty options list.
    The capital-letter scans return the empty string;
    [parse_bracketed_answer] searches for the pattern of an empty group
    between brackets, and returns the empty string when the text holds
    ["<>"] and the sentinel otherwise; [parse_first_option] fails in
    [re.search], whose first pattern holds an unterminated set. *)
Theorem empty_options_behaviour (U : unicode_db) (text : str) :
  parse_first_option U text [] = Raise re_error
  /\ parse_first_capital U text [] = Return []
  /\ parse_last_capital U text [] = Return []
  /\ parse_bracketed_answer U text []
     = Return (if contains (u"<>") text then [] else u"No valid option found").
Proof.
  split; [|split; [|split]].
  - unfold parse_first_option. change (process_options []) with (@nil N).
    unfold patterns. apply cascade_compile_error. vm_compute. reflexivity.
  - apply first_capital_no_options.
  - rewrite last_capital_rev. apply first_capital_no_options.
  - unfold parse_bracketed_answer.
    change (process_options []) with (process_options [[]]).
    fold (parse_bracketed_answer U text [[]]).
    rewrite parse_bracketed_spec by discriminate.
    rewrite find_bracketed_empty_label.
    destruct (contains (u"<>") text); reflexivity.
Qed.

Lemma empty_options_no_InvalidInputError :
  ~ (forall (U : unicode_db) (text : str),
       parse_first_option U text [] = Raise InvalidInputError
       /\ parse_first_capital U text [] = Raise InvalidInputError
       /\ parse_last_capital U text [] = Raise InvalidInputError
       /\ parse_bracketed_answer U text [] = Raise InvalidInputError).
Proof.
  intros H. destruct (H ascii_db []) as (_ & H2 & _).
  simpl in H2. discriminate H2.
Qed.

(** ** Blank text *)

Lemma lstrip_blank (s : str) :
  Forall (fun c => isspace c = true) s -> lstrip s = [].
Proof. induction 1 as [|c s Hc _ IH]; simpl; [reflexivity|]. rewrite Hc. exact IH. Qed.

Lemma strip_blank (s : str) :
  Forall (fun c => isspace c = true) s -> strip s = [].
Proof. intros H. unfold strip. rewrite (lstrip_blank s H). reflexivity. Qed.

Lemma isupper_space (U : unicode_db) (c : N) :
  isspace c = true -> isupper U c = false.
Proof.
  intros H. unfold isupper. rewrite H.
  destruct (c <? 128) eqn:E; [|reflexivity].
  destruct ((65 <=? c) && (c <=? 90)) eqn:E'; [|reflexivity].
  apply andb_true_iff in E'. rewrite !N.leb_le in E'.
  unfold isspace in H.
  rewrite !orb_true_iff, !andb_true_iff, !N.leb_le, !N.eqb_eq in H. lia.
Qed.

Lemma prefixb_bracketed_blank (o s : str) :
  Forall (fun c => isspace c = true) s -> prefixb (bracketed o) s = false.
Proof.
  intros [|c t Hc _]; [reflexivity|].
  unfold bracketed. cbn [app prefixb].
  destruct (N.eqb_spec 60 c) as [<-|_]; [discriminate Hc | reflexivity].
Qed.

Lemma Forall_skipn (A : Type) (P : A -> Prop) (n : nat) (l : list A) :
  Forall P l -> Forall P (skipn n l).
Proof.
  revert l; induction n as [|n IH]; intros l H; [exact H|].
  destruct H; [constructor | apply IH; assumption].
Qed.

Lemma nonempty_options (options : list str) :
  process_options options <> [] -> options <> [].
Proof. intros H ->. apply H. reflexivity. Qed.

(** C7, as the code has it: when the options, escaped and joined, are not
    the empty string (two labels or more, or one non-empty label), a text
    of white space only, the empty text included, gives "no match" in the
    four functions. *)
Theorem blank_text_no_match (U : unicode_db) (options : list str) (text : str) :
  process_options options <> [] ->
  Forall (fun c => isspace c = true) text ->
  parse_first_option U text options = Return []
  /\ parse_first_capital U text options = Return []
  /\ parse_last_capital U text options = Return []
  /\ parse_bracketed_answer U text options = Return (u"No valid option found").
Proof.
  intros Hne Hblank.
  assert (Hcap : forall t, Forall (fun c => isspace c = true) t ->
                           parse_first_capital U t options = Return []).
  { intros t Ht. apply first_capital_none. intros c Hc [Hu _].
    rewrite Forall_forall in Ht.
    rewrite (isupper_space U c (Ht c Hc)) in Hu. discriminate Hu. }
  split; [|split; [|split]].
  - unfold parse_first_option. rewrite patterns_templates.
    apply (cascade_refuted U options [] []); [exact Hne | |].
    + rewrite (strip_blank text Hblank). constructor.
    + generalize (class_of options). intros cls. vm_compute. reflexivity.
  - apply Hcap. exact Hblank.
  - rewrite last_capital_rev. apply Hcap. apply Forall_rev. exact Hblank.
  - rewrite parse_bracketed_spec by (apply nonempty_options; exact Hne).
    rewrite find_bracketed_none; [reflexivity|].
    intros p o _. apply prefixb_bracketed_blank.
    apply Forall_skipn. exact Hblank.
Qed.

Lemma blank_text_witness :
  process_options ABCD <> []
  /\ Forall (fun c => isspace c = true) (u"  ")
  /\ parse_first_option ascii_db (u"  ") ABCD = Return []
  /\ parse_first_capital ascii_db (u"  ") ABCD = Return []
  /\ parse_last_capital ascii_db (u"  ") ABCD = Return []
  /\ parse_bracketed_answer ascii_db (u"  ") ABCD = Return (u"No valid option found").
Proof.
  assert (Hne : process_options ABCD <> []) by discriminate.
  assert (Hblank : Forall (fun c => isspace c = true) (u"  "))
    by (repeat constructor).
  split; [exact Hne|]. split; [exact Hblank|].
  exact (blank_text_no_match ascii_db ABCD (u"  ") Hne Hblank).
Defined.

Lemma blank_text_empty_label_raises :
  ~ (forall (U : unicode_db) (options : list str) (text : str),
       options <> [] ->
       Forall (fun c => isspace c = true) text ->
       parse_first_option U text options = Return []
       /\ parse_first_capital U text options = Return []
       /\ parse_last_capital U text options = Return []
       /\ parse_bracketed_answer U text options
          = Return (u"No valid option found")).
Proof.
  intros H.
  destruct (H ascii_db [[]] [] ltac:(discriminate) (Forall_nil _)) as (H1 & _).
  vm_compute in H1. discriminate H1.
Qed.

(** ** "The answer is X" *)

Lemma search_from_skip (U : unicode_db) (icase dotall : bool) (r r' : regex) (n : nat) :
  approx r r' ->
  forall (pos : nat) (atext : list (option N)) (text : str),
    describes atext text ->
    abs_none_upto U icase dotall r' n pos atext = true ->
    search_from (re_test U icase dotall) is_newline r pos text
    = search_from (re_test U icase dotall) is_newline r (pos + n) (skipn n text).
Proof.
  intros Ha. induction n as [|n IH]; intros pos atext text Hd H.
  - rewrite Nat.add_0_r. reflexivity.
  - cbn [abs_none_upto] in H.
    destruct (match_at (abs_test U icase dotall) abs_newline r' pos atext) eqn:E;
      [discriminate|].
    pose proof (match_at_refute U icase dotall r r' pos atext text Ha Hd E) as Hc.
    destruct Hd as [|x c atext text Hxc Hrest]; [discriminate|].
    cbn [search_from skipn]. rewrite Hc.
    rewrite (IH (S pos) atext text Hrest H).
    rewrite Nat.add_succ_r. reflexivity.
Qed.

Lemma describes_unknown_last (a : str) (X : N) :
  describes (map Some a ++ [None]) (a ++ [X]).
Proof.
  induction a as [|c a IH]; simpl.
  - constructor; [left; reflexivity | constructor].
  - constructor; [right; reflexivity | exact IH].
Qed.

Lemma In_join (sep : str) (parts : list str) (o : str) (c : N) :
  In o parts -> In c o -> In c (join sep parts).
Proof.
  induction parts as [|p rest IH]; intros Ho Hc; [destruct Ho|].
  destruct rest as [|p' rest].
  - destruct Ho as [->|[]]. exact Hc.
  - change (join sep (p :: p' :: rest)) with (p ++ sep ++ join sep (p' :: rest)).
    destruct Ho as [->|Ho].
    + apply in_or_app. left. exact Hc.
    + apply in_or_app. right. apply in_or_app. right. apply IH; assumption.
Qed.

Lemma In_escape (c : N) (o : str) : In c o -> In c (re_escape o).
Proof.
  intros H. unfold re_escape. apply in_flat_map. exists c. split; [exact H|].
  unfold escape_char. destruct (is_special c); simpl; auto.
Qed.

Lemma find_mem_single (X : N) (oc : str) :
  In X oc -> first_contained oc [X] = Some X.
Proof.
  unfold first_contained.
  induction oc as [|i oc IH]; intros H; [destruct H|].
  cbn [find mem existsb]. rewrite orb_false_r.
  destruct (N.eqb_spec i X) as [->|Hne]; [reflexivity|].
  apply IH. destruct H as [H|H]; [congruence | exact H].
Qed.

Lemma cascade_refuted_then (U : unicode_db) (options : list str)
    (cls' : list set_item) (atext : list (option N)) (tpls : list (list str))
    (rest : list str) (text : str) :
  process_options options <> [] ->
  describes atext (strip text) ->
  forallb (refuted U (class_of options) cls' atext) tpls = true ->
  cascade U (process_options options)
    (map (join (process_options options)) tpls ++ rest) text
  = cascade U (process_options options) rest (strip text).
Proof.
  intros Hne. revert text. induction tpls as [|t tpls IH]; intros text Hd; simpl map.
  - intros _. simpl app. symmetry. apply cascade_strip.
  - cbn [forallb]. rewrite andb_true_iff. intros [H1 H2].
    rewrite <- app_comm_cons, cascade_nomatch.
    + rewrite IH; [rewrite strip_idem; reflexivity | rewrite strip_idem; exact Hd | exact H2].
    + apply (refuted_sound U options cls' atext); assumption.
Qed.

Lemma answer_text_stripped (X : N) :
  isspace X = false -> strip (u"The answer is " ++ [X]) = u"The answer is " ++ [X].
Proof.
  intros HX. unfold strip.
  change (lstrip (u"The answer is " ++ [X])) with (u"The answer is " ++ [X]).
  unfold rstrip. rewrite rev_app_distr.
  change (rev [X]) with [X]. cbn [app lstrip]. rewrite HX.
  change (X :: rev (u"The answer is ")) with ([X] ++ rev (u"The answer is ")).
  rewrite rev_app_distr, rev_involutive. reflexivity.
Qed.

Lemma rule27_matches (U : unicode_db) (options : list str) (X : N) :
  In [X] options -> process_options options <> [] ->
  re_search U true (join (process_options options) (nth 26 templates []))
    (u"The answer is " ++ [X])
  = Match 1 [32; X] (Some [X]).
Proof.
  intros HX Hne.
  assert (Hmem : existsb (item_match X) (class_of options) = true).
  { apply existsb_exists. exists (CLit X). split; [|apply N.eqb_refl].
    unfold class_of. apply in_map. apply (In_join [124] options [X]); simpl; auto. }
  unfold re_search.
  remember (class_of options) as cls eqn:Ecls.
  let v := eval vm_compute in (compile_tpl cls (nth 26 templates [])) in
  assert (Hc : compile_tpl cls (nth 26 templates []) = v) by (vm_compute; reflexivity).
  let v := eval vm_compute in (compile_tpl [] (nth 26 templates [])) in
  assert (Hc' : compile_tpl [] (nth 26 templates []) = v) by (vm_compute; reflexivity).
  rewrite Ecls in Hc.
  match type of Hc with _ = Some ?c =>
    rewrite (compile_tpl_sound options _ c Hne Hc) end.
  cbn [re_ignorecase re_body re_groups].
  match type of Hc' with _ = Some ?c' =>
    rewrite (search_from_skip U false true _ (re_body c') 13) with
      (atext := map Some (u"The answer is ") ++ [None])
  end.
  - change (skipn 13 (u"The answer is " ++ [X])) with [32; X].
    cbn [re_body search_from match_at rmatch match_atom Nat.add].
    change (re_test U false true (ASet (class_of options)) X)
      with (existsb (item_match X) (class_of options)).
    rewrite <- Ecls, Hmem. reflexivity.
  - apply approxb_sound. vm_compute. reflexivity.
  - apply describes_unknown_last.
  - vm_compute. reflexivity.
Qed.

Lemma templates_split :
  templates = firstn 26 templates ++ nth 26 templates [] :: skipn 27 templates.
Proof. vm_compute. reflexivity. Qed.

Lemma cascade_first_match (U : unicode_db) (options : list str)
    (cls' : list set_item) (atext : list (option N))
    (before : list (list str)) (rule : list str) (after : list (list str))
    (text g0 g : str) (i : N) :
  process_options options <> [] ->
  strip text = text ->
  describes atext text ->
  forallb (refuted U (class_of options) cls' atext) before = true ->
  re_search U true (join (process_options options) rule) text
    = Match 1 g0 (Some g) ->
  nonempty g = true ->
  first_contained (process_options options) g = Some i ->
  cascade U (process_options options)
    (map (join (process_options options)) (before ++ rule :: after)) text
  = Return [i].
Proof.
  intros Hne Hs Hd Hb Hm Hg Hi.
  rewrite map_app, (cascade_refuted_then U options cls' atext); try assumption.
  - cbn [map cascade]. rewrite !Hs, Hm. cbn [Nat.eqb]. rewrite Hg, Hi. reflexivity.
  - rewrite Hs. exact Hd.
Qed.

(** C3, as the code has it: for a label of one character that is not
    white space, [parse_first_option] on "The answer is " followed by the
    label returns the label, whatever the other options are. *)
Theorem the_answer_is_label (U : unicode_db) (options : list str) (X : N) :
  In [X] options -> isspace X = false ->
  parse_first_option U (u"The answer is " ++ [X]) options = Return [X].
Proof.
  intros HX Hsp.
  assert (Hin : In X (process_options options)).
  { unfold process_options. apply (In_join [124] _ (re_escape [X])).
    - apply in_map. exact HX.
    - apply In_escape. left. reflexivity. }
  assert (Hne : process_options options <> []).
  { intros E. rewrite E in Hin. destruct Hin. }
  unfold parse_first_option. rewrite patterns_templates, templates_split.
  apply (cascade_first_match U options []
           (map Some (u"The answer is ") ++ [None]) _ _ _ _ [32; X] [X] X).
  - exact Hne.
  - apply answer_text_stripped. exact Hsp.
  - apply describes_unknown_last.
  - generalize (class_of options). intros cls. vm_compute. reflexivity.
  - apply rule27_matches; assumption.
  - reflexivity.
  - apply find_mem_single. exact Hin.
Qed.

Lemma the_answer_is_label_witness :
  In [ch "C"] ABCD /\ isspace (ch "C") = false
  /\ parse_first_option ascii_db (u"The answer is C") ABCD = Return (u"C").
Proof.
  assert (HX : In [ch "C"] ABCD) by (right; right; left; reflexivity).
  assert (Hsp : isspace (ch "C") = false) by reflexivity.
  split; [exact HX|]. split; [exact Hsp|].
  exact (the_answer_is_label ascii_db ABCD (ch "C") HX Hsp).
Defined.

(** C3 as the specification has it does not hold: the text is stripped
    before the first rule, so a label that is white space is gone from
    the end of the text.  With the options [" "] and ["A"] and the label
    [" "] the text becomes ["The answer is"], no rule matches and the
    result is the empty string. *)
Lemma the_answer_is_blank_label :
  ~ (forall (U : unicode_db) (options : list str) (L : str),
       options <> [] -> NoDup options -> In L options ->
       parse_first_option U (u"The answer is " ++ L) options = Return L).
Proof.
  intros H.
  assert (Hd : NoDup [u" "; u"A"]).
  { constructor; [intros [E|[]]; discriminate E|].
    constructor; [intros []|constructor]. }
  specialize (H ascii_db [u" "; u"A"] (u" ") ltac:(discriminate) Hd
                (or_introl eq_refl)).
  vm_compute in H. discriminate H.
Qed.

Example the_answer_is_blank_label_value :
  parse_first_option ascii_db (u"The answer is " ++ u" ") [u" "; u"A"] = Return [].
Proof. vm_compute. reflexivity. Qed.

(** A label of several characters: the result is one of its characters,
    an instance of the defect of C1 (the joined options are used as a set
    of characters). *)
Example the_answer_is_long_label :
  parse_first_option ascii_db (u"The answer is AB") [u"AB"; u"C"] = Return (u"A").
Proof. vm_compute. reflexivity. Qed.

(* ================================================================== *)
(** * Properties of the other functions *)

(** ** get_valid_list *)

Section ValidListFacts.
Variable A : Type.
Variable eqb : A -> A -> bool.
Hypothesis eqb_eq : forall x y, eqb x y = true <-> x = y.

Lemma member_In (i : A) (l : list A) : member eqb i l = true <-> In i l.
Proof.
  unfold member. rewrite existsb_exists. split.
  - intros (x & Hx & E). apply eqb_eq in E. subst. exact Hx.
  - intros H. exists i. split; [exact H | apply eqb_eq; reflexivity].
Qed.
End ValidListFacts.

Lemma filter_subseq (A : Type) (P : A -> bool) (l : list A) :
  subseq (filter P l) l.
Proof.
  induction l as [|x l IH]; simpl; [constructor|].
  destruct (P x); constructor; exact IH.
Qed.

Lemma filter_split_perm (A : Type) (P : A -> bool) (l : list A) :
  Permutation (filter P l ++ filter (fun x => negb (P x)) l) l.
Proof.
  induction l as [|x l IH]; simpl; [constructor|].
  destruct (P x); simpl.
  - constructor. exact IH.
  - apply Permutation_sym, Permutation_cons_app, Permutation_sym. exact IH.
Qed.

(** X1: with an [==] that is equality, the first list holds the elements
    of the input that occur in the candidates and the second the elements
    that do not. *)
Theorem get_valid_list_sound (A : Type) (eqb : A -> A -> bool)
    (input_list candidate_list : list A) (x : A) :
  (forall a b, eqb a b = true <-> a = b) ->
  (In x (fst (get_valid_list eqb input_list candidate_list))
     <-> In x input_list /\ In x candidate_list)
  /\ (In x (snd (get_valid_list eqb input_list candidate_list))
        <-> In x input_list /\ ~ In x candidate_list).
Proof.
  intros Heq. unfold get_valid_list. simpl. rewrite !filter_In.
  rewrite negb_true_iff, <- not_true_iff_false, (member_In A eqb Heq). tauto.
Qed.

Lemma get_valid_list_sound_witness :
  (forall a b, str_eqb a b = true <-> a = b)
  /\ (In (u"B") (fst (get_valid_list str_eqb [u"B"; u"E"] ABCD))
        <-> In (u"B") [u"B"; u"E"] /\ In (u"B") ABCD)
  /\ (In (u"B") (snd (get_valid_list str_eqb [u"B"; u"E"] ABCD))
        <-> In (u"B") [u"B"; u"E"] /\ ~ In (u"B") ABCD).
Proof.
  split; [exact str_eqb_eq|].
  exact (get_valid_list_sound str str_eqb [u"B"; u"E"] ABCD (u"B") str_eqb_eq).
Defined.

(** X2: the two lists split the input: each keeps its elements in the
    order of the input, and together they hold every element of the input
    as often as the input does. *)
Theorem get_valid_list_partition (A : Type) (eqb : A -> A -> bool)
    (input_list candidate_list : list A) :
  let r := get_valid_list eqb input_list candidate_list in
  subseq (fst r) input_list /\ subseq (snd r) input_list
  /\ Permutation (fst r ++ snd r) input_list
  /\ (List.length (fst r) + List.length (snd r) = List.length input_list)%nat.
Proof.
  simpl. split; [apply filter_subseq|]. split; [apply filter_subseq|].
  pose proof (filter_split_perm A (fun i => member eqb i candidate_list) input_list) as H.
  split; [exact H|].
  rewrite <- (Permutation_length H), length_app. reflexivity.
Qed.

(** X3: running the function again on one of its results, with the same
    candidates, moves nothing: the valid list is valid as a whole, the
    invalid list invalid as a whole. *)
Theorem get_valid_list_again (A : Type) (eqb : A -> A -> bool)
    (input_list candidate_list : list A) :
  let r := get_valid_list eqb input_list candidate_list in
  get_valid_list eqb (fst r) candidate_list = (fst r, [])
  /\ get_valid_list eqb (snd r) candidate_list = ([], snd r).
Proof.
  simpl. unfold get_valid_list.
  induction input_list as [|x l [IH1 IH2]]; simpl; [split; reflexivity|].
  injection IH1 as IH1a IH1b. injection IH2 as IH2a IH2b.
  destruct (member eqb x candidate_list) eqn:E; simpl; rewrite ?E; simpl;
    rewrite ?IH1a, ?IH1b, ?IH2a, ?IH2b; split; reflexivity.
Qed.

(** ** More on ResponseParser *)

Lemma cascade_no_raise (U : unicode_db) (oc : str) (ps : list str) :
  (forall p, In p ps -> exists c, re_compile p = Some c /\ re_groups c <> 0%nat) ->
  forall text,
    cascade U oc ps text = Return []
    \/ exists i, In i oc /\ cascade U oc ps text = Return [i].
Proof.
  induction ps as [|p ps IH]; intros Hc text; [left; reflexivity|].
  cbn [cascade]. unfold re_search.
  destruct (Hc p (or_introl eq_refl)) as (c & Ec & Hg). rewrite Ec.
  assert (IH' := IH (fun q Hq => Hc q (or_intror Hq))).
  destruct (search_from _ _ _ _ _) as [[g0 g1]|]; [|apply IH'].
  destruct (Nat.eqb_spec (re_groups c) 0) as [E|_]; [contradiction|].
  destruct (first_contained oc _) as [i|] eqn:E; [|apply IH'].
  right. exists i. split; [|reflexivity].
  apply find_some in E. exact (proj1 E).
Qed.

Lemma In_escape_char (i c : N) : In i (escape_char c) -> i = c \/ i = 92.
Proof.
  unfold escape_char. destruct (is_special c); simpl; intuition auto.
Qed.

Lemma In_re_escape (i : N) (o : str) : In i (re_escape o) -> In i o \/ i = 92.
Proof.
  unfold re_escape. rewrite in_flat_map. intros (c & Hc & Hi).
  destruct (In_escape_char i c Hi) as [->|E]; auto.
Qed.

Lemma In_join_cases (sep : str) (parts : list str) (i : N) :
  In i (join sep parts) -> (exists p, In p parts /\ In i p) \/ In i sep.
Proof.
  induction parts as [|p rest IH]; [intros []|].
  destruct rest as [|p' rest].
  - intros H. left. exists p. split; [left; reflexivity | exact H].
  - change (join sep (p :: p' :: rest)) with (p ++ sep ++ join sep (p' :: rest)).
    rewrite !in_app_iff. intros [H|[H|H]].
    + left. exists p. split; [left; reflexivity | exact H].
    + right. exact H.
    + destruct (IH H) as [(q & Hq & Hi)|Hs]; [|right; exact Hs].
      left. exists q. split; [right; exact Hq | exact Hi].
Qed.

Lemma In_process_options (options : list str) (i : N) :
  In i (process_options options) ->
  (exists o, In o options /\ In i o) \/ i = 124 \/ i = 92.
Proof.
  unfold process_options. intros H.
  destruct (In_join_cases [124] _ i H) as [(p & Hp & Hi)|[E|[]]].
  - apply in_map_iff in Hp. destruct Hp as (o & <- & Ho).
    destruct (In_re_escape i o Hi) as [Hio|E]; [|right; right; exact E].
    left. exists o. split; assumption.
  - right; left. symmetry. exact E.
Qed.

(** X4: when the options, escaped and joined, are not the empty string,
    [parse_first_option] returns for every text, without an exception,
    and the result is the empty string or a string of one character: a
    character of some option, the separator ['|'], or a backslash. *)
Theorem parse_first_option_total (U : unicode_db) (options : list str) (text : str) :
  process_options options <> [] ->
  parse_first_option U text options = Return []
  \/ exists i, parse_first_option U text options = Return [i]
               /\ ((exists o, In o options /\ In i o) \/ i = 124 \/ i = 92).
Proof.
  intros Hne. unfold parse_first_option. rewrite patterns_templates.
  assert (Hall : forallb (compiles_with_group (class_of options)) templates = true).
  { generalize (class_of options). intros cls. vm_compute. reflexivity. }
  destruct (cascade_no_raise U (process_options options)
              (map (join (process_options options)) templates)) with (text := text)
    as [H|(i & Hi & H)].
  - intros p Hp. apply in_map_iff in Hp. destruct Hp as (t & <- & Ht).
    rewrite forallb_forall in Hall. specialize (Hall t Ht).
    unfold compiles_with_group in Hall.
    destruct (compile_tpl (class_of options) t) as [c|] eqn:Ec; [|discriminate].
    exists c. split; [apply compile_tpl_sound; assumption|].
    destruct (Nat.eqb_spec (re_groups c) 0); [discriminate | assumption].
  - left. exact H.
  - right. exists i. split; [exact H | apply In_process_options; exact Hi].
Qed.

Lemma parse_first_option_total_witness :
  process_options ABCD <> []
  /\ (parse_first_option ascii_db (u"answer: B") ABCD = Return []
      \/ exists i, parse_first_option ascii_db (u"answer: B") ABCD = Return [i]
                   /\ ((exists o, In o ABCD /\ In i o) \/ i = 124 \/ i = 92)).
Proof.
  assert (Hne : process_options ABCD <> []) by discriminate.
  split; [exact Hne|].
  exact (parse_first_option_total ascii_db ABCD (u"answer: B") Hne).
Defined.

(** Under [(?i)] a cased literal of a set beyond U+FFFF is kept as
    written and compared with the lower-cased character of the text: a
    capital written in the set matches nothing, a small letter matches
    both cases. *)
Example ignorecase_set_capital_beyond_bmp :
  re_search deseret_db true
    (u"(?i)ANSWER\s*:\s*([" ++ process_options [[66560]; u"A"] ++ u"])")
    (u"ANSWER: " ++ [66560]) = NoMatch
  /\ re_search deseret_db true
       (u"(?i)ANSWER\s*:\s*([" ++ process_options [[66600]; u"A"] ++ u"])")
       (u"ANSWER: " ++ [66560]) = Match 1 (u"ANSWER: " ++ [66560]) (Some [66560])
  /\ re_search deseret_db true
       (u"(?i)ANSWER\s*:\s*([" ++ process_options [[66600]; u"A"] ++ u"])")
       (u"answer: " ++ [66600]) = Match 1 (u"answer: " ++ [66600]) (Some [66600]).
Proof. vm_compute. split; [|split]; reflexivity. Qed.

(** A label of two or more characters is never the result of
    [parse_first_option], whatever the text is: the result is the empty
    string or one character. *)
Lemma long_label_not_returned (U : unicode_db) (options : list str) (text L : str) :
  process_options options <> [] -> (2 <= List.length L)%nat ->
  parse_first_option U text options <> Return L.
Proof.
  intros Hne HL. unfold parse_first_option. rewrite patterns_templates.
  assert (Hall : forallb (compiles_with_group (class_of options)) templates = true).
  { generalize (class_of options). intros cls. vm_compute. reflexivity. }
  destruct (cascade_no_raise U (process_options options)
              (map (join (process_options options)) templates)) with (text := text)
    as [H|(i & Hi & H)].
  - intros p Hp. apply in_map_iff in Hp. destruct Hp as (t & <- & Ht).
    rewrite forallb_forall in Hall. specialize (Hall t Ht).
    unfold compiles_with_group in Hall.
    destruct (compile_tpl (class_of options) t) as [c|] eqn:Ec; [|discriminate].
    exists c. split; [apply compile_tpl_sound; assumption|].
    destruct (Nat.eqb_spec (re_groups c) 0); [discriminate | assumption].
  - rewrite H. intros E. injection E as <-. simpl in HL. lia.
  - rewrite H. intros E. injection E as <-. simpl in HL. lia.
Qed.

Lemma compile_options (options : list str) :
  options <> [] ->
  re_compile (process_options options)
  = Some {| re_ignorecase := false; re_groups := 0;
            re_body := alt_of (map lits options) |}.
Proof.
  intros Hne. unfold re_compile.
  destruct (prun_options_normal options Hne pinit eq_refl eq_refl)
    as (alts & seq & Hrun & Hclose).
  rewrite Hrun. unfold pfinish. simpl. simpl in Hclose. rewrite Hclose. reflexivity.
Qed.

Lemma find_option_eq (options : list str) (text : str) :
  find_option options text
  = match find (fun o => prefixb o text) options with
    | Some o => Some o
    | None => match text with
              | [] => None
              | _ :: text' => find_option options text'
              end
    end.
Proof. destruct text; reflexivity. Qed.

Lemma match_at_options (U : unicode_db) (dotall : bool) (options : list str)
    (pos : nat) (s : str) :
  options <> [] ->
  match_at (re_test U false dotall) is_newline (alt_of (map lits options)) pos s
  = option_map (fun o => (o, None)) (find (fun o => prefixb o s) options).
Proof.
  intros Hne. unfold match_at.
  assert (Hl : forall (A : Type) (o : str) (p : nat) (t : str) (cap : option str)
                      (k : nat -> str -> option str -> option A),
             rmatch (re_test U false dotall) is_newline (lits o) p t cap k
             = rmatch (re_test U false false) is_newline (lits o) p t cap k).
  { intros A o. unfold lits. induction o as [|c o IH]; intros p t cap k; [reflexivity|].
    simpl map. destruct (map lit o) as [|r rs] eqn:E.
    - reflexivity.
    - change (seq_of (lit c :: r :: rs)) with (RSeq (lit c) (seq_of (r :: rs))).
      cbn [rmatch lit match_atom]. destruct t as [|x t]; [reflexivity|].
      change (re_test U false dotall (ALit c) x) with (x =? c).
      change (re_test U false false (ALit c) x) with (x =? c).
      destruct (x =? c); [apply IH | reflexivity]. }
  assert (Ha : forall (A : Type) (p : nat) (t : str) (cap : option str)
                      (k : nat -> str -> option str -> option A),
             rmatch (re_test U false dotall) is_newline (alt_of (map lits options)) p t cap k
             = rmatch (re_test U false false) is_newline (alt_of (map lits options)) p t cap k).
  { intros A. clear Hne. induction options as [|o rest IH]; intros p t cap k; [reflexivity|].
    destruct rest as [|o' rest].
    - simpl. apply Hl.
    - change (alt_of (map lits (o :: o' :: rest)))
        with (RAlt (lits o) (alt_of (map lits (o' :: rest)))).
      cbn [rmatch]. rewrite Hl, IH. reflexivity. }
  rewrite Ha, rmatch_alt_of_lits by exact Hne.
  apply first_some_find. intros o.
  destruct (prefixb o s) eqn:E; [|reflexivity].
  replace (pos + List.length o - pos)%nat with (List.length o) by lia.
  rewrite (prefixb_firstn o s E). reflexivity.
Qed.

(** X5: the string of [process_options], used as a pattern, is the
    alternation of the options read literally, whatever characters they
    hold: a search finds the leftmost place of the text where an option
    begins, and there the first such option of the list. *)
Theorem process_options_pattern (U : unicode_db) (dotall : bool)
    (options : list str) (text : str) :
  options <> [] ->
  re_search U dotall (process_options options) text
  = match find_option options text with
    | Some o => Match 0 o None
    | None => NoMatch
    end.
Proof.
  intros Hne. unfold re_search. rewrite compile_options by exact Hne.
  cbn [re_ignorecase re_body re_groups].
  assert (H : forall pos,
             search_from (re_test U false dotall) is_newline
               (alt_of (map lits options)) pos text
             = option_map (fun o => (o, None)) (find_option options text)).
  { induction text as [|x s IH]; intros pos; cbn [search_from];
      rewrite find_option_eq, match_at_options by exact Hne;
      destruct (find _ options); try reflexivity.
    apply IH. }
  rewrite H. destruct (find_option options text); reflexivity.
Qed.

Lemma process_options_pattern_witness :
  [u"a.c"; u"abc"] <> []
  /\ re_search ascii_db false (process_options [u"a.c"; u"abc"]) (u"xabc a.c")
     = Match 0 (u"abc") None.
Proof.
  assert (Hne : [u"a.c"; u"abc"] <> []) by discriminate.
  split; [exact Hne|].
  exact (process_options_pattern ascii_db false [u"a.c"; u"abc"] (u"xabc a.c") Hne).
Defined.

Lemma find_bracketed_In (options : list str) (text : str) (o : str) :
  find_bracketed options text = Some o -> In o options.
Proof.
  induction text as [|c text IH]; rewrite find_bracketed_eq;
    destruct (find _ options) as [o'|] eqn:E; try discriminate.
  - intros H. injection H as <-. apply find_some in E. exact (proj1 E).
  - intros H. injection H as <-. apply find_some in E. exact (proj1 E).
  - exact IH.
Qed.

(** X6: [parse_bracketed_answer] returns a string for every text and
    every options list, the empty one included: it raises no exception
    and does not return [None].  The string is the sentinel or one of the
    options (the empty string, when there is no option). *)
Theorem parse_bracketed_answer_total (U : unicode_db) (options : list str) (text : str) :
  parse_bracketed_answer U text options = Return (u"No valid option found")
  \/ exists o, parse_bracketed_answer U text options = Return o
               /\ (In o options \/ (options = [] /\ o = [])).
Proof.
  destruct options as [|o0 rest].
  - unfold parse_bracketed_answer.
    change (process_options []) with (process_options [[]]).
    fold (parse_bracketed_answer U text [[]]).
    rewrite parse_bracketed_spec by discriminate.
    destruct (find_bracketed [[]] text) as [o|] eqn:E; [|left; reflexivity].
    right. exists o. split; [reflexivity|]. right. split; [reflexivity|].
    apply find_bracketed_In in E. destruct E as [<-|[]]. reflexivity.
  - rewrite parse_bracketed_spec by discriminate.
    destruct (find_bracketed (o0 :: rest) text) as [o|] eqn:E; [|left; reflexivity].
    right. exists o. split; [reflexivity|]. left.
    apply (find_bracketed_In _ _ _ E).
Qed.

Lemma capital_same_options (U : unicode_db) (options options' : list str) (text : str) :
  (forall c, In [c] options <-> In [c] options') ->
  parse_first_capital U text options = parse_first_capital U text options'.
Proof.
  intros H. induction text as [|t text IH]; simpl; [reflexivity|].
  assert (E : in_list [t] options = in_list [t] options').
  { apply eq_true_iff_eq. rewrite !in_list_In. apply H. }
  rewrite E, IH. reflexivity.
Qed.

(** X7: the capital-letter scans use the options only to test
    one-character strings for membership: two options lists with the same
    one-character members (in any order, with any repetitions and any
    longer labels) give the same results. *)
Theorem capital_scans_membership_only (U : unicode_db) (options options' : list str)
    (text : str) :
  (forall c, In [c] options <-> In [c] options') ->
  parse_first_capital U text options = parse_first_capital U text options'
  /\ parse_last_capital U text options = parse_last_capital U text options'.
Proof.
  intros H. split.
  - apply capital_same_options. exact H.
  - rewrite !last_capital_rev. apply capital_same_options. exact H.
Qed.

Lemma capital_scans_membership_witness :
  (forall c, In [c] [u"B"; u"A"; u"AB"; u"B"] <-> In [c] [u"A"; u"B"])
  /\ parse_first_capital ascii_db (u"xBA") [u"B"; u"A"; u"AB"; u"B"]
     = parse_first_capital ascii_db (u"xBA") [u"A"; u"B"]
  /\ parse_last_capital ascii_db (u"xBA") [u"B"; u"A"; u"AB"; u"B"]
     = parse_last_capital ascii_db (u"xBA") [u"A"; u"B"].
Proof.
  assert (H : forall c, In [c] [u"B"; u"A"; u"AB"; u"B"] <-> In [c] [u"A"; u"B"]).
  { intros c. change (u"A") with [65]. change (u"B") with [66].
    change (u"AB") with [65; 66]. simpl. split.
    - intros [E|[E|[E|[E|[]]]]]; try (injection E as <-; auto); discriminate E.
    - intros [E|[E|[]]]; injection E as <-; auto. }
  split; [exact H|].
  exact (capital_scans_membership_only ascii_db _ _ (u"xBA") H).
Defined.

Lemma templates_head : templates = [] ++ nth 0 templates [] :: skipn 1 templates.
Proof. vm_compute. reflexivity. Qed.

Lemma answer_zh_stripped (X : N) :
  isspace X = false -> strip (u"答案是" ++ [X]) = u"答案是" ++ [X].
Proof.
  intros HX. unfold strip.
  change (lstrip (u"答案是" ++ [X])) with (u"答案是" ++ [X]).
  unfold rstrip. rewrite rev_app_distr.
  change (rev [X]) with [X]. cbn [app lstrip]. rewrite HX.
  change (X :: rev (u"答案是")) with ([X] ++ rev (u"答案是")).
  rewrite rev_app_distr, rev_involutive. reflexivity.
Qed.

Lemma rule1_matches (U : unicode_db) (options : list str) (X : N) :
  In [X] options -> process_options options <> [] -> isspace X = false ->
  re_search U true (join (process_options options) (nth 0 templates []))
    (u"答案是" ++ [X])
  = Match 1 (u"答案是" ++ [X]) (Some [X]).
Proof.
  intros HX Hne Hsp.
  assert (Hmem : existsb (item_match X) (class_of options) = true).
  { apply existsb_exists. exists (CLit X). split; [|apply N.eqb_refl].
    unfold class_of. apply in_map. apply (In_join [124] options [X]); simpl; auto. }
  unfold re_search.
  remember (class_of options) as cls eqn:Ecls.
  let v := eval vm_compute in (compile_tpl cls (nth 0 templates [])) in
  assert (Hc : compile_tpl cls (nth 0 templates []) = v) by (vm_compute; reflexivity).
  rewrite Ecls in Hc.
  match type of Hc with _ = Some ?c =>
    rewrite (compile_tpl_sound options _ c Hne Hc) end.
  cbn [re_ignorecase re_body re_groups].
  change (u"答案是" ++ [X]) with [31572; 26696; 26159; X].
  cbn [search_from match_at rmatch match_atom greedy_star].
  change (re_test U false true ASpace X) with (isspace X).
  change (re_test U false true (ASet (class_of options)) X)
    with (existsb (item_match X) (class_of options)).
  rewrite Hsp, <- Ecls, Hmem. reflexivity.
Qed.

(** X8: the rule of highest priority.  For a label of one character that
    is not white space, [parse_first_option] on the text that says "the
    answer is" in Chinese, followed by the label, returns the label. *)
Theorem the_answer_is_label_zh (U : unicode_db) (options : list str) (X : N) :
  In [X] options -> isspace X = false ->
  parse_first_option U (u"答案是" ++ [X]) options = Return [X].
Proof.
  intros HX Hsp.
  assert (Hin : In X (process_options options)).
  { unfold process_options. apply (In_join [124] _ (re_escape [X])).
    - apply in_map. exact HX.
    - apply In_escape. left. reflexivity. }
  assert (Hne : process_options options <> []).
  { intros E. rewrite E in Hin. destruct Hin. }
  unfold parse_first_option. rewrite patterns_templates, templates_head.
  apply (cascade_first_match U options [] (map Some (u"答案是") ++ [None])
           _ _ _ _ (u"答案是" ++ [X]) [X] X).
  - exact Hne.
  - apply answer_zh_stripped. exact Hsp.
  - apply describes_unknown_last.
  - reflexivity.
  - apply rule1_matches; assumption.
  - reflexivity.
  - apply find_mem_single. exact Hin.
Qed.

Lemma the_answer_is_label_zh_witness :
  In [ch "C"] ABCD /\ isspace (ch "C") = false
  /\ parse_first_option ascii_db (u"答案是C") ABCD = Return (u"C").
Proof.
  assert (HX : In [ch "C"] ABCD) by (right; right; left; reflexivity).
  assert (Hsp : isspace (ch "C") = false) by reflexivity.
  split; [exact HX|]. split; [exact Hsp|].
  exact (the_answer_is_label_zh ascii_db ABCD (ch "C") HX Hsp).
Defined.

(** ** dict_torch_dtype_to_str *)

Lemma all_done_dict (items : dict) :
  all_done (VDict items)
  <-> dtype_done items /\ Forall (fun kv => all_done (snd kv)) items.
Proof.
  simpl. apply and_iff_compat_l.
  induction items as [|[k x] l IH]; simpl.
  - split; [constructor | exact (fun _ => I)].
  - rewrite IH. split.
    + intros [H1 H2]. constructor; assumption.
    + intros H. inversion H; subst. split; assumption.
Qed.

Lemma dict_set_keys (key : str) (v : value) (d : dict) :
  map fst (dict_set key v d) = map fst d.
Proof.
  induction d as [|[k x] d IH]; simpl; [reflexivity|].
  destruct (str_eqb k key); simpl; [reflexivity | rewrite IH; reflexivity].
Qed.

Lemma dict_get_set (key : str) (v : value) (d : dict) :
  dict_get key d <> None -> dict_get key (dict_set key v d) = Some v.
Proof.
  induction d as [|[k x] d IH]; simpl; [congruence|].
  destruct (str_eqb k key) eqn:E; simpl; rewrite E; [reflexivity | exact IH].
Qed.

Section TorchDtypeFacts.
Variable dict_str : dict -> str.
Variable str_frames : value -> nat.

Lemma convert_entry_keys (remaining : nat) (d d1 : dict) :
  convert_entry dict_str str_frames remaining d = inl d1 -> map fst d1 = map fst d.
Proof.
  unfold convert_entry.
  destruct (dict_get (u"torch_dtype") d) as [[|s|t|items]|];
    try (intros H; injection H as <-; reflexivity);
    (destruct (remaining <? _)%nat; [discriminate|];
     destruct (split_on 46 _) as [|p0 [|part ps]]; try discriminate;
     intros H; injection H as <-; apply dict_set_keys).
Qed.

Lemma convert_entry_done (remaining : nat) (d d1 : dict) :
  convert_entry dict_str str_frames remaining d = inl d1 -> dtype_done d1.
Proof.
  unfold convert_entry, dtype_done.
  destruct (dict_get (u"torch_dtype") d) as [[|s|t|items]|] eqn:E;
    try (intros H; injection H as <-; rewrite E; exact I);
    (destruct (remaining <? _)%nat; [discriminate|];
     destruct (split_on 46 _) as [|p0 [|part ps]]; try discriminate;
     intros H; injection H as <-;
     rewrite dict_get_set by (rewrite E; discriminate); exact I).
Qed.

Lemma convert_entry_fixed (remaining : nat) (d : dict) :
  dtype_done d -> convert_entry dict_str str_frames remaining d = inl d.
Proof.
  unfold convert_entry, dtype_done.
  destruct (dict_get (u"torch_dtype") d) as [[|s|t|items]|];
    try reflexivity; intros [].
Qed.

Section Visit.
Variable rec : dict -> dict * option dtd_error.

Lemma visit_keys (d : dict) : map fst (fst (visit rec d)) = map fst d.
Proof.
  induction d as [|[k x] d IH]; simpl; [reflexivity|].
  destruct x as [|s|t|inner]; try (destruct (visit rec d); simpl in *; rewrite IH; reflexivity).
  destruct (rec inner) as [inner' [e|]]; [reflexivity|].
  destruct (visit rec d); simpl in *. rewrite IH. reflexivity.
Qed.

Lemma visit_done (d : dict) : dtype_done d -> dtype_done (fst (visit rec d)).
Proof.
  unfold dtype_done.
  induction d as [|[k x] d IH]; simpl; [exact (fun H => H)|].
  destruct x as [|s|t|inner].
  1-3: destruct (visit rec d) as [d'' e]; simpl in *;
       destruct (str_eqb k (u"torch_dtype")); [exact (fun H => H) | exact IH].
  destruct (rec inner) as [inner' [e|]].
  - simpl. destruct (str_eqb k (u"torch_dtype")); exact (fun H => H).
  - destruct (visit rec d) as [d'' e]; simpl in *.
    destruct (str_eqb k (u"torch_dtype")); [exact (fun H => H) | exact IH].
Qed.

Lemma visit_all_done (d : dict) :
  (forall inner inner', rec inner = (inner', None) -> all_done (VDict inner')) ->
  snd (visit rec d) = None ->
  Forall (fun kv => all_done (snd kv)) (fst (visit rec d)).
Proof.
  intros Hrec. induction d as [|[k x] d IH]; simpl; [constructor|].
  destruct x as [|s|t|inner].
  1-3: destruct (visit rec d) as [d'' e]; simpl in *; intros He;
       constructor; [exact I | apply IH; exact He].
  destruct (rec inner) as [inner' [e|]] eqn:Er; [discriminate|].
  destruct (visit rec d) as [d'' e]; simpl in *. intros He.
  constructor; [apply (Hrec inner inner' Er) | apply IH; exact He].
Qed.

Lemma visit_again (d : dict) :
  (forall inner inner', rec inner = (inner', None) -> rec inner' = (inner', None)) ->
  snd (visit rec d) = None ->
  visit rec (fst (visit rec d)) = (fst (visit rec d), None).
Proof.
  intros Hrec. induction d as [|[k x] d IH]; simpl; [reflexivity|].
  destruct x as [|s|t|inner].
  1-3: destruct (visit rec d) as [d'' e]; simpl in *; intros He;
       rewrite (IH He); reflexivity.
  destruct (rec inner) as [inner' [e|]] eqn:Er; [discriminate|].
  destruct (visit rec d) as [d'' e]; simpl in *. intros He.
  rewrite (Hrec inner inner' Er), (IH He). reflexivity.
Qed.

Lemma visit_get_str (key s : str) (d : dict) :
  dict_get key d = Some (VStr s) -> dict_get key (fst (visit rec d)) = Some (VStr s).
Proof.
  induction d as [|[k x] d IH]; simpl; [discriminate|].
  destruct x as [|s'|t|inner].
  1-3: destruct (visit rec d) as [d'' e]; simpl in *;
       destruct (str_eqb k key); [exact (fun H => H) | exact IH].
  destruct (rec inner) as [inner' [e|]].
  - simpl. destruct (str_eqb k key); [discriminate | exact (fun H => H)].
  - destruct (visit rec d) as [d'' e]; simpl in *.
    destruct (str_eqb k key); [discriminate | exact IH].
Qed.
End Visit.

(** X9: the call never adds, removes or reorders keys: the dictionary has
    the same keys afterwards, whether the call returned or raised. *)
Theorem dict_torch_dtype_keys (limit : nat) (d : dict) :
  map fst (fst (dict_torch_dtype_to_str dict_str str_frames limit d)) = map fst d.
Proof.
  destruct limit as [|n]; simpl; [reflexivity|].
  destruct (convert_entry dict_str str_frames n d) as [d1|e] eqn:E; [|reflexivity].
  rewrite visit_keys. apply (convert_entry_keys n d d1 E).
Qed.

(** X10: when the call returns, the dictionary and every dictionary
    nested in its values has an entry [torch_dtype] that is absent,
    [None] or a string. *)
Theorem dict_torch_dtype_done (limit : nat) (d : dict) :
  snd (dict_torch_dtype_to_str dict_str str_frames limit d) = None ->
  all_done (VDict (fst (dict_torch_dtype_to_str dict_str str_frames limit d))).
Proof.
  revert d. induction limit as [|n IH]; intros d; simpl; [discriminate|].
  destruct (convert_entry dict_str str_frames n d) as [d1|e] eqn:E; [|discriminate].
  intros He. apply all_done_dict. split.
  - apply visit_done. apply (convert_entry_done n d d1 E).
  - apply visit_all_done; [|exact He].
    intros inner inner' Hr. specialize (IH inner). rewrite Hr in IH. apply IH. reflexivity.
Qed.

(** X11: a second call changes nothing: when the call returns, a call on
    the resulting dictionary returns it as it is. *)
Theorem dict_torch_dtype_idempotent (limit : nat) (d : dict) :
  snd (dict_torch_dtype_to_str dict_str str_frames limit d) = None ->
  dict_torch_dtype_to_str dict_str str_frames limit
    (fst (dict_torch_dtype_to_str dict_str str_frames limit d))
  = (fst (dict_torch_dtype_to_str dict_str str_frames limit d), None).
Proof.
  revert d. induction limit as [|n IH]; intros d; simpl; [discriminate|].
  destruct (convert_entry dict_str str_frames n d) as [d1|e] eqn:E; [|discriminate].
  intros He.
  rewrite convert_entry_fixed
    by (apply visit_done; apply (convert_entry_done n d d1 E)).
  apply visit_again; [|exact He].
  intros inner inner' Hr. specialize (IH inner). rewrite Hr in IH. apply IH. reflexivity.
Qed.
End TorchDtypeFacts.

Lemma split_on_no_sep (sep : N) (s : str) : ~ In sep s -> split_on sep s = [s].
Proof.
  induction s as [|c s IH]; intros H; simpl; [reflexivity|].
  destruct (N.eqb_spec c sep) as [->|_]; [exfalso; apply H; left; reflexivity|].
  rewrite IH; [reflexivity|]. intros Hs. apply H. right. exact Hs.
Qed.

Lemma split_on_first (sep : N) (a s : str) :
  ~ In sep a -> split_on sep (a ++ sep :: s) = a :: split_on sep s.
Proof.
  induction a as [|c a IH]; intros H; simpl.
  - rewrite N.eqb_refl. reflexivity.
  - destruct (N.eqb_spec c sep) as [->|_]; [exfalso; apply H; left; reflexivity|].
    rewrite IH; [reflexivity|]. intros Hs. apply H. right. exact Hs.
Qed.

Section TorchDtypeStack.
Variable dict_str : dict -> str.
Variable str_frames : value -> nat.








(** X13: an entry [torch_dtype] that is neither [None] nor a string, and
    whose text has no dot, makes the call raise IndexError before
    anything is changed, provided [str] has the stack it needs. *)
Theorem dict_torch_dtype_no_dot (limit : nat) (d : dict) (x : value) :
  dict_get (u"torch_dtype") d = Some x ->
  x <> VNone -> (forall s, x <> VStr s) ->
  (str_frames x <= limit)%nat ->
  ~ In 46 (py_str dict_str x) ->
  dict_torch_dtype_to_str dict_str str_frames (S limit) d = (d, Some DIndexError).
Proof.
  intros Hg Hn Hs Hf Ht. simpl. unfold convert_entry. rewrite Hg.
  destruct (Nat.ltb_spec limit (str_frames x)) as [Hlt|_]; [lia|].
  rewrite (split_on_no_sep 46 _ Ht).
  destruct x as [|s|t|items]; try reflexivity; [congruence | exfalso; apply (Hs s); reflexivity].
Qed.

(** X14: provided [str] has the stack it needs, the entry becomes the
    part of the object's text between its first and its second dot (to
    the end, when there is one dot only): the text before the first dot
    and whatever follows a second dot are dropped. *)
Theorem dict_torch_dtype_second_part (limit : nat) (d : dict) (x : value)
    (a b rest : str) :
  dict_get (u"torch_dtype") d = Some x ->
  x <> VNone -> (forall s, x <> VStr s) ->
  (str_frames x <= limit)%nat ->
  py_str dict_str x = a ++ 46 :: b ++ rest ->
  ~ In 46 a -> ~ In 46 b ->
  rest = [] \/ (exists r, rest = 46 :: r) ->
  dict_get (u"torch_dtype")
    (fst (dict_torch_dtype_to_str dict_str str_frames (S limit) d)) = Some (VStr b).
Proof.
  intros Hg Hn Hs Hf Hp Ha Hb Hrest. simpl. unfold convert_entry. rewrite Hg.
  destruct (Nat.ltb_spec limit (str_frames x)) as [Hlt|_]; [lia|].
  rewrite Hp, (split_on_first 46 a (b ++ rest) Ha).
  assert (Hsp : exists ps, split_on 46 (b ++ rest) = b :: ps).
  { destruct Hrest as [->|(r & ->)].
    - rewrite app_nil_r, (split_on_no_sep 46 b Hb). exists []. reflexivity.
    - rewrite (split_on_first 46 b r Hb). eexists. reflexivity. }
  destruct Hsp as (ps & ->).
  assert (G : dict_get (u"torch_dtype")
                (fst (visit (dict_torch_dtype_to_str dict_str str_frames limit)
                        (dict_set (u"torch_dtype") (VStr b) d))) = Some (VStr b)).
  { apply visit_get_str. apply dict_get_set. rewrite Hg. discriminate. }
  destruct x as [|s|t|items]; try exact G; [congruence | exfalso; apply (Hs s); reflexivity].
Qed.
End TorchDtypeStack.

(** With one call allowed and a [__str__] written in Python, [str] has no
    stack left: RecursionError, and the dictionary as it was. *)
Example dict_torch_dtype_last_frame :
  dict_torch_dtype_to_str (fun _ => []) (fun _ => 1%nat) 1 example_config
  = (example_config, Some DRecursionError).
Proof. reflexivity. Qed.

Lemma dict_torch_dtype_done_witness :
  snd (dict_torch_dtype_to_str (fun _ => []) (fun _ => O) 2 example_config) = None
  /\ all_done (VDict (fst (dict_torch_dtype_to_str (fun _ => []) (fun _ => O) 2
                             example_config))).
Proof.
  assert (H : snd (dict_torch_dtype_to_str (fun _ => []) (fun _ => O) 2
                     example_config) = None) by reflexivity.
  split; [exact H|].
  exact (dict_torch_dtype_done (fun _ => []) (fun _ => O) 2 example_config H).
Defined.

Lemma dict_torch_dtype_idempotent_witness :
  snd (dict_torch_dtype_to_str (fun _ => []) (fun _ => O) 2 example_config) = None
  /\ dict_torch_dtype_to_str (fun _ => []) (fun _ => O) 2
       (fst (dict_torch_dtype_to_str (fun _ => []) (fun _ => O) 2 example_config))
     = (fst (dict_torch_dtype_to_str (fun _ => []) (fun _ => O) 2 example_config), None).
Proof.
  assert (H : snd (dict_torch_dtype_to_str (fun _ => []) (fun _ => O) 2
                     example_config) = None) by reflexivity.
  split; [exact H|].
  exact (dict_torch_dtype_idempotent (fun _ => []) (fun _ => O) 2 example_config H).
Defined.


Lemma dict_torch_dtype_no_dot_witness :
  dict_get (u"torch_dtype") [(u"torch_dtype", VDict [])] = Some (VDict [])
  /\ (1 <= 1)%nat
  /\ ~ In 46 (u"{}")
  /\ dict_torch_dtype_to_str (fun _ => u"{}") (fun _ => 1%nat) 2
       [(u"torch_dtype", VDict [])]
     = ([(u"torch_dtype", VDict [])], Some DIndexError).
Proof.
  assert (Hg : dict_get (u"torch_dtype") [(u"torch_dtype", VDict [])]
               = Some (VDict [])) by reflexivity.
  assert (Hf : (1 <= 1)%nat) by lia.
  assert (Ht : ~ In 46 (u"{}")) by (intros [E|[E|[]]]; discriminate E).
  split; [exact Hg|]. split; [exact Hf|]. split; [exact Ht|].
  refine (dict_torch_dtype_no_dot (fun _ => u"{}") (fun _ => 1%nat) 1 _ (VDict [])
            Hg _ _ Hf Ht); [discriminate | intros s; discriminate].
Defined.

Lemma dict_torch_dtype_second_part_witness :
  dict_get (u"torch_dtype") example_config = Some (VObj (u"torch.float32"))
  /\ (0 <= 1)%nat
  /\ u"torch.float32" = u"torch" ++ 46 :: u"float32" ++ []
  /\ ~ In 46 (u"torch") /\ ~ In 46 (u"float32")
  /\ dict_get (u"torch_dtype")
       (fst (dict_torch_dtype_to_str (fun _ => []) (fun _ => O) 2 example_config))
     = Some (VStr (u"float32")).
Proof.
  assert (Hg : dict_get (u"torch_dtype") example_config
               = Some (VObj (u"torch.float32"))) by reflexivity.
  assert (Hf : (0 <= 1)%nat) by lia.
  assert (Hp : u"torch.float32" = u"torch" ++ 46 :: u"float32" ++ []) by reflexivity.
  assert (Ha : ~ In 46 (u"torch")).
  { vm_compute. intros H. repeat (destruct H as [H|H]; [discriminate H|]). exact H. }
  assert (Hb : ~ In 46 (u"float32")).
  { vm_compute. intros H. repeat (destruct H as [H|H]; [discriminate H|]). exact H. }
  split; [exact Hg|]. split; [exact Hf|]. split; [exact Hp|].
  split; [exact Ha|]. split; [exact Hb|].
  refine (dict_torch_dtype_second_part (fun _ => []) (fun _ => O) 1 example_config
            (VObj (u"torch.float32")) (u"torch") (u"float32") [] Hg _ _ Hf Hp Ha Hb
            (or_introl eq_refl)); [discriminate | intros s; discriminate].
Defined.

(** ** gen_hash *)

(** The model of MD5 against digests computed by hashlib. *)
Example md5_vector_0 :
  gen_hash (u"") 32 = Hash (u"d41d8cd98f00b204e9800998ecf8427e").
Proof. vm_compute. reflexivity. Qed.

Example md5_vector_1 :
  gen_hash (u"a") 32 = Hash (u"0cc175b9c0f1b6a831c399e269772661").
Proof. vm_compute. reflexivity. Qed.

Example md5_vector_2 :
  gen_hash (u"abc") 32 = Hash (u"900150983cd24fb0d6963f7d28e17f72").
Proof. vm_compute. reflexivity. Qed.

Example md5_vector_3 :
  gen_hash (u"message digest") 32 = Hash (u"f96b697d7cb7938d525a2f31aaf161d0").
Proof. vm_compute. reflexivity. Qed.

Example md5_vector_4 :
  gen_hash (u"The answer is C") 32 = Hash (u"29f6c4da283a28fe1470a75f7863bf67").
Proof. vm_compute. reflexivity. Qed.

Example md5_vector_5 :
  gen_hash (u"xxxxxxxxxxxxxxxxxxxxxxxxxxxxxxxxxxxxxxxxxxxxxxxxxxxxxxx") 32 = Hash (u"04364420e25c512fd958a70738aa8f72").
Proof. vm_compute. reflexivity. Qed.

Example md5_vector_6 :
  gen_hash (u"yyyyyyyyyyyyyyyyyyyyyyyyyyyyyyyyyyyyyyyyyyyyyyyyyyyyyyyy") 32 = Hash (u"6c830a5d23df58dbe0171eb5639bf3e4").
Proof. vm_compute. reflexivity. Qed.

Example md5_vector_7 :
  gen_hash (u"zzzzzzzzzzzzzzzzzzzzzzzzzzzzzzzzzzzzzzzzzzzzzzzzzzzzzzzzzzzzzzz") 32 = Hash (u"cac9376765157678c96c250aee8ffb87").
Proof. vm_compute. reflexivity. Qed.

Example md5_vector_8 :
  gen_hash (u"wwwwwwwwwwwwwwwwwwwwwwwwwwwwwwwwwwwwwwwwwwwwwwwwwwwwwwwwwwwwwwww") 32 = Hash (u"e03817e1560f2bda422e74827ecead8c").
Proof. vm_compute. reflexivity. Qed.

Example md5_vector_9 :
  gen_hash (u"qqqqqqqqqqqqqqqqqqqqqqqqqqqqqqqqqqqqqqqqqqqqqqqqqqqqqqqqqqqqqqqqq") 32 = Hash (u"4f8d62f3cf50e436dfe277c67b321fbc").
Proof. vm_compute. reflexivity. Qed.

Example md5_vector_10 :
  gen_hash (u"rrrrrrrrrrrrrrrrrrrrrrrrrrrrrrrrrrrrrrrrrrrrrrrrrrrrrrrrrrrrrrrrrrrrrrrrrrrrrrrrrrrrrrrrrrrrrrrrrrrrrrrrrrrrrrrrrrrrrrr") 32 = Hash (u"3203ec7670254c051c8e51f334d17d35").
Proof. vm_compute. reflexivity. Qed.

Example md5_vector_11 :
  gen_hash (u"ssssssssssssssssssssssssssssssssssssssssssssssssssssssssssssssssssssssssssssssssssssssssssssssssssssssssssssssssssssssss") 32 = Hash (u"435f1c18319d7352db4fea6718c017d0").
Proof. vm_compute. reflexivity. Qed.

Example md5_vector_12 :
  gen_hash (u"tttttttttttttttttttttttttttttttttttttttttttttttttttttttttttttttttttttttttttttttttttttttttttttttttttttttttttttttttttttttttttttttttttttttttttttttttttttttttttttttttttttttttttttttttttttttttttttttttttttttt") 32 = Hash (u"89ca32028ae3bf6376a6e123a9c9e41f").
Proof. vm_compute. reflexivity. Qed.

Example md5_vector_13 :
  gen_hash (u"答案是对的") 32 = Hash (u"da055f37641322afd1a56e2cf6d5d106").
Proof. vm_compute. reflexivity. Qed.

Example md5_vector_14 :
  gen_hash (u"mmlu_高中数学") 32 = Hash (u"97cd9d139dab91a627a014856964af3f").
Proof. vm_compute. reflexivity. Qed.

Lemma utf8_encode_char_error (c : N) :
  utf8_encode_char c = None <-> is_surrogate c = true.
Proof.
  unfold utf8_encode_char, is_surrogate.
  destruct (c <? 128) eqn:E1.
  - apply N.ltb_lt in E1. split; [discriminate|].
    rewrite andb_true_iff, !N.leb_le. lia.
  - destruct (c <? 2048) eqn:E2.
    + apply N.ltb_lt in E2. split; [discriminate|].
      rewrite andb_true_iff, !N.leb_le. lia.
    + destruct (c <? 65536) eqn:E3.
      * destruct ((55296 <=? c) && (c <=? 57343)); split; congruence.
      * apply N.ltb_ge in E3. split; [discriminate|].
        rewrite andb_true_iff, !N.leb_le. lia.
Qed.

Lemma utf8_encode_error (s : str) :
  utf8_encode s = None <-> existsb is_surrogate s = true.
Proof.
  induction s as [|c s IH]; simpl; [split; discriminate|].
  rewrite orb_true_iff, <- IH, <- utf8_encode_char_error.
  destruct (utf8_encode_char c), (utf8_encode s); split; intros H;
    try discriminate; try reflexivity; auto;
    destruct H as [H|H]; discriminate H.
Qed.

Lemma le_bytes_length (count : nat) (x : N) : List.length (le_bytes count x) = count.
Proof. unfold le_bytes. rewrite length_map, length_seq. reflexivity. Qed.

Lemma le_bytes_small (count : nat) (x : N) :
  Forall (fun b => b < 256) (le_bytes count x).
Proof.
  unfold le_bytes. apply Forall_forall. intros b Hb.
  apply in_map_iff in Hb. destruct Hb as (i & <- & _).
  apply N.mod_lt. discriminate.
Qed.

Lemma md5_length (msg : list N) : List.length (md5 msg) = 16%nat.
Proof.
  unfold md5. cbn [flat_map]. rewrite !length_app, !le_bytes_length. reflexivity.
Qed.

Lemma md5_small (msg : list N) : Forall (fun b => b < 256) (md5 msg).
Proof.
  unfold md5. cbn [flat_map]. rewrite app_nil_r.
  repeat (apply Forall_app; split); apply le_bytes_small.
Qed.

Lemma hexdigest_length (bytes : list N) :
  List.length (hexdigest bytes) = (2 * List.length bytes)%nat.
Proof.
  unfold hexdigest. induction bytes as [|b bytes IH]; simpl; [reflexivity|].
  rewrite IH. lia.
Qed.

Lemma hex_digit_in (n : N) : n < 16 -> In (hex_digit n) (u"0123456789abcdef").
Proof.
  intros H. unfold hex_digit. apply nth_In.
  change (List.length (u"0123456789abcdef")) with 16%nat. lia.
Qed.

Lemma hexdigest_alphabet (bytes : list N) :
  Forall (fun b => b < 256) bytes ->
  Forall (fun c => In c (u"0123456789abcdef")) (hexdigest bytes).
Proof.
  unfold hexdigest. induction 1 as [|b bytes Hb _ IH]; simpl; [constructor|].
  constructor; [|constructor; [|exact IH]].
  - apply hex_digit_in. apply N.Div0.div_lt_upper_bound. exact Hb.
  - apply hex_digit_in. apply N.mod_lt. discriminate.
Qed.

Lemma Forall_firstn_keep (A : Type) (P : A -> Prop) (n : nat) (l : list A) :
  Forall P l -> Forall P (firstn n l).
Proof.
  revert l; induction n as [|n IH]; intros l H; [constructor|].
  destruct H; simpl; constructor; auto.
Qed.

Lemma prefixb_firstn_le (n1 n2 : nat) (l : str) :
  (n1 <= n2)%nat -> prefixb (firstn n1 l) (firstn n2 l) = true.
Proof.
  revert n2 l; induction n1 as [|n1 IH]; intros n2 l H; [reflexivity|].
  destruct n2 as [|n2]; [lia|].
  destruct l as [|c l]; [reflexivity|].
  simpl. rewrite N.eqb_refl. apply IH. lia.
Qed.

(** X15: the count [bits] is a count of hexadecimal characters.  For a
    name without surrogate code points the result is a string over
    [0-9a-f] of [bits] characters, and of 32 when [bits] is larger; a
    negative [bits] leaves the digest without its last [-bits]
    characters. *)
Theorem gen_hash_shape (name : str) (bits : Z) :
  existsb is_surrogate name = false ->
  exists h, gen_hash name bits = Hash h
    /\ Z.of_nat (List.length h)
       = (if (bits <? 0)%Z then Z.max 0 (32 + bits) else Z.min bits 32)
    /\ Forall (fun c => In c (u"0123456789abcdef")) h.
Proof.
  intros Hs. unfold gen_hash.
  destruct (utf8_encode name) as [bytes|] eqn:E.
  2:{ apply utf8_encode_error in E. congruence. }
  eexists. split; [reflexivity|].
  assert (Hl : List.length (hexdigest (md5 bytes)) = 32%nat)
    by (rewrite hexdigest_length, md5_length; reflexivity).
  split.
  - unfold slice_to. rewrite Hl.
    destruct (bits <? 0)%Z eqn:Eb; rewrite length_firstn, Hl.
    + apply Z.ltb_lt in Eb. lia.
    + apply Z.ltb_ge in Eb. lia.
  - unfold slice_to.
    destruct (bits <? 0)%Z; apply Forall_firstn_keep, hexdigest_alphabet, md5_small.
Qed.

Lemma gen_hash_shape_witness :
  existsb is_surrogate (u"mmlu") = false
  /\ exists h, gen_hash (u"mmlu") 8 = Hash h
       /\ Z.of_nat (List.length h) = 8%Z
       /\ Forall (fun c => In c (u"0123456789abcdef")) h.
Proof.
  assert (Hs : existsb is_surrogate (u"mmlu") = false) by reflexivity.
  split; [exact Hs|].
  exact (gen_hash_shape (u"mmlu") 8 Hs).
Defined.

(** X16: the call raises UnicodeEncodeError exactly when the name holds a
    surrogate code point, whatever [bits] is. *)
Theorem gen_hash_error (name : str) (bits : Z) :
  gen_hash name bits = UnicodeEncodeError <-> existsb is_surrogate name = true.
Proof.
  unfold gen_hash. rewrite <- utf8_encode_error.
  destruct (utf8_encode name); split; intros H; try discriminate; reflexivity.
Qed.

(** X17: shorter hashes are the beginnings of longer ones: for
    [0 <= bits1 <= bits2] the hash of a name with [bits1] is a prefix of
    its hash with [bits2]. *)
Theorem gen_hash_prefix (name : str) (bits1 bits2 : Z) (h1 h2 : str) :
  (0 <= bits1 <= bits2)%Z ->
  gen_hash name bits1 = Hash h1 -> gen_hash name bits2 = Hash h2 ->
  prefixb h1 h2 = true.
Proof.
  intros Hb. unfold gen_hash.
  destruct (utf8_encode name) as [bytes|]; [|discriminate].
  unfold slice_to.
  destruct (bits1 <? 0)%Z eqn:E1; [apply Z.ltb_lt in E1; lia|].
  destruct (bits2 <? 0)%Z eqn:E2; [apply Z.ltb_lt in E2; lia|].
  intros H1 H2. injection H1 as <-. injection H2 as <-.
  apply prefixb_firstn_le. lia.
Qed.

Lemma gen_hash_prefix_witness :
  (0 <= 4 <= 12)%Z
  /\ gen_hash (u"abc") 4 = Hash (u"9001")
  /\ gen_hash (u"abc") 12 = Hash (u"900150983cd2")
  /\ prefixb (u"9001") (u"900150983cd2") = true.
Proof.
  assert (Hb : (0 <= 4 <= 12)%Z) by lia.
  assert (H1 : gen_hash (u"abc") 4 = Hash (u"9001")) by (vm_compute; reflexivity).
  assert (H2 : gen_hash (u"abc") 12 = Hash (u"900150983cd2"))
    by (vm_compute; reflexivity).
  split; [exact Hb|]. split; [exact H1|]. split; [exact H2|].
  exact (gen_hash_prefix (u"abc") 4 12 _ _ Hb H1 H2).
Defined.

(** X18: no more than the digest: with [bits] of 32 or more the result is
    the result of the default [bits = 32], the whole hexadecimal digest. *)
Theorem gen_hash_saturates (name : str) (bits : Z) :
  (gen_hash_default_bits <= bits)%Z ->
  gen_hash name bits = gen_hash name gen_hash_default_bits.
Proof.
  unfold gen_hash_default_bits. intros Hb. unfold gen_hash.
  destruct (utf8_encode name) as [bytes|]; [|reflexivity].
  assert (Hl : List.length (hexdigest (md5 bytes)) = 32%nat)
    by (rewrite hexdigest_length, md5_length; reflexivity).
  unfold slice_to.
  destruct (bits <? 0)%Z eqn:E1; [apply Z.ltb_lt in E1; lia|].
  change (32 <? 0)%Z with false. cbv beta iota.
  rewrite !firstn_all2 by (rewrite Hl; lia). reflexivity.
Qed.

Lemma gen_hash_saturates_witness :
  (gen_hash_default_bits <= 100)%Z
  /\ gen_hash (u"abc") 100 = gen_hash (u"abc") gen_hash_default_bits.
Proof.
  assert (Hb : (gen_hash_default_bits <= 100)%Z) by (unfold gen_hash_default_bits; lia).
  split; [exact Hb|].
  exact (gen_hash_saturates (u"abc") 100 Hb).
Defined.

(** ** get_latest_folder_path *)

Section LatestFolderFacts.
Variable is_decimal_ext : N -> bool.
Variable datetime : Type.
Variable strptime : str -> option datetime.
Variable dt_gt : datetime -> datetime -> bool.

Lemma max_by_timestamp_error (best : str) (k : datetime) (rest : list str) :
  max_by_timestamp strptime dt_gt best k rest = None
  <-> exists f, In f rest /\ strptime f = None.
Proof.
  revert best k. induction rest as [|f rest IH]; intros best k; simpl.
  - split; [discriminate | intros (f & [] & _)].
  - destruct (strptime f) as [kf|] eqn:E.
    + assert (H : forall b kb, max_by_timestamp strptime dt_gt b kb rest = None
                    <-> exists g, In g (f :: rest) /\ strptime g = None).
      { intros b kb. rewrite IH. split.
        - intros (g & Hg & Eg). exists g. split; [right; exact Hg | exact Eg].
        - intros (g & [<-|Hg] & Eg); [congruence|]. exists g. split; assumption. }
      destruct (dt_gt kf k); apply H.
    + split; [|reflexivity]. intros _. exists f. split; [left; reflexivity | exact E].
Qed.

(** X19: a folder whose name has the form of a time stamp and that
    [strptime] rejects makes the call raise ValueError, whatever the
    other folders are; without such a folder the call does not raise. *)
Theorem latest_folder_error (work_dir : str) (folders : list str) :
  get_latest_folder_path is_decimal_ext strptime dt_gt work_dir folders = ValueError
  <-> exists f, In f folders /\ timestamp_match is_decimal_ext f = true
                /\ strptime f = None.
Proof.
  unfold get_latest_folder_path.
  assert (Hf : forall f, In f (filter (timestamp_match is_decimal_ext) folders)
                 <-> In f folders /\ timestamp_match is_decimal_ext f = true)
    by (intros f; apply filter_In).
  destruct (filter (timestamp_match is_decimal_ext) folders) as [|f rest].
  - split; [discriminate|]. intros (f & Hin & Hm & _).
    destruct (proj2 (Hf f) (conj Hin Hm)).
  - destruct (strptime f) as [k|] eqn:E.
    + destruct (max_by_timestamp strptime dt_gt f k rest) as [latest|] eqn:Em.
      * split; [discriminate|]. intros (g & Hin & Hm & Eg).
        destruct (proj2 (Hf g) (conj Hin Hm)) as [<-|Hr]; [congruence|].
        assert (Hn : max_by_timestamp strptime dt_gt f k rest = None)
          by (apply max_by_timestamp_error; exists g; split; assumption).
        congruence.
      * split; [|reflexivity]. intros _.
        apply max_by_timestamp_error in Em. destruct Em as (g & Hg & Eg).
        exists g. destruct (proj1 (Hf g) (or_intror Hg)) as [Hin Hm].
        repeat split; assumption.
    + split; [|reflexivity]. intros _.
      exists f. destruct (proj1 (Hf f) (or_introl eq_refl)) as [Hin Hm].
      repeat split; assumption.
Qed.

Section Order.
Hypothesis gt_asym : forall a b, dt_gt a b = true -> dt_gt b a = false.
Hypothesis le_trans : forall a b c,
  dt_gt a b = false -> dt_gt b c = false -> dt_gt a c = false.

Lemma max_by_timestamp_max (rest : list str) :
  forall best k latest,
    strptime best = Some k ->
    max_by_timestamp strptime dt_gt best k rest = Some latest ->
    (latest = best \/ In latest rest)
    /\ exists kl, strptime latest = Some kl
         /\ dt_gt k kl = false
         /\ forall g kg, In g rest -> strptime g = Some kg -> dt_gt kg kl = false.
Proof.
  induction rest as [|f rest IH]; intros best k latest Hk; simpl.
  - intros H. injection H as <-. split; [left; reflexivity|].
    exists k. split; [exact Hk|]. split.
    + destruct (dt_gt k k) eqn:E; [|reflexivity].
      rewrite (gt_asym k k E) in E. discriminate.
    + intros g kg [].
  - destruct (strptime f) as [kf|] eqn:Ef; [|discriminate].
    destruct (dt_gt kf k) eqn:Eg; intros H.
    + destruct (IH f kf latest Ef H) as (Hin & kl & Hkl & Hle & Hall).
      split; [right; destruct Hin as [->|Hin]; [left; reflexivity | right; exact Hin]|].
      exists kl. split; [exact Hkl|]. split.
      * apply (le_trans k kf kl); [apply gt_asym; exact Eg | exact Hle].
      * intros g kg [<-|Hg] Eg'; [|apply (Hall g kg Hg Eg')].
        rewrite Ef in Eg'. injection Eg' as <-. exact Hle.
    + destruct (IH best k latest Hk H) as (Hin & kl & Hkl & Hle & Hall).
      split; [destruct Hin as [->|Hin]; [left; reflexivity | right; right; exact Hin]|].
      exists kl. split; [exact Hkl|]. split; [exact Hle|].
      intros g kg [<-|Hg] Eg'; [|apply (Hall g kg Hg Eg')].
      rewrite Ef in Eg'. injection Eg' as <-.
      apply (le_trans kf k kl); assumption.
Qed.
End Order.

(** X20: when [>] on the time stamps is the strict part of a total
    preorder and [strptime] accepts every folder whose name has the form
    of a time stamp, the call returns [None] if there is no such folder,
    and otherwise the path of one of them, joined to [work_dir], whose
    time stamp no other one exceeds. *)
Theorem latest_folder_is_latest (work_dir : str) (folders : list str) :
  (forall a b, dt_gt a b = true -> dt_gt b a = false) ->
  (forall a b c, dt_gt a b = false -> dt_gt b c = false -> dt_gt a c = false) ->
  (forall f, In f folders -> timestamp_match is_decimal_ext f = true ->
             strptime f <> None) ->
  (get_latest_folder_path is_decimal_ext strptime dt_gt work_dir folders = NoFolder
   /\ forall f, In f folders -> timestamp_match is_decimal_ext f = false)
  \/ exists latest kl,
       get_latest_folder_path is_decimal_ext strptime dt_gt work_dir folders
         = Folder (posix_join work_dir latest)
       /\ In latest folders
       /\ timestamp_match is_decimal_ext latest = true
       /\ strptime latest = Some kl
       /\ forall g kg, In g folders -> timestamp_match is_decimal_ext g = true ->
                       strptime g = Some kg -> dt_gt kg kl = false.
Proof.
  intros Hasym Htrans Hparse. unfold get_latest_folder_path.
  assert (Hf : forall f, In f (filter (timestamp_match is_decimal_ext) folders)
                 <-> In f folders /\ timestamp_match is_decimal_ext f = true)
    by (intros f; apply filter_In).
  destruct (filter (timestamp_match is_decimal_ext) folders) as [|f rest].
  - left. split; [reflexivity|]. intros f Hin.
    destruct (timestamp_match is_decimal_ext f) eqn:E; [|reflexivity].
    destruct (proj2 (Hf f) (conj Hin E)).
  - right.
    destruct (proj1 (Hf f) (or_introl eq_refl)) as [Hfin Hfm].
    destruct (strptime f) as [k|] eqn:Ek;
      [|exfalso; apply (Hparse f Hfin Hfm); exact Ek].
    destruct (max_by_timestamp strptime dt_gt f k rest) as [latest|] eqn:Em.
    2:{ apply max_by_timestamp_error in Em. destruct Em as (g & Hg & Eg).
        destruct (proj1 (Hf g) (or_intror Hg)) as [Hgin Hgm].
        exfalso. apply (Hparse g Hgin Hgm). exact Eg. }
    destruct (max_by_timestamp_max Hasym Htrans rest f k latest Ek Em)
      as (Hin & kl & Hkl & Hle & Hall).
    exists latest, kl. split; [reflexivity|].
    assert (Hl : In latest (f :: rest))
      by (destruct Hin as [->|Hin]; [left; reflexivity | right; exact Hin]).
    destruct (proj1 (Hf latest) Hl) as [Hlin Hlm].
    split; [exact Hlin|]. split; [exact Hlm|]. split; [exact Hkl|].
    intros g kg Hgin Hgm Eg.
    destruct (proj2 (Hf g) (conj Hgin Hgm)) as [<-|Hg].
    + rewrite Ek in Eg. injection Eg as <-. exact Hle.
    + apply (Hall g kg Hg Eg).
Qed.
End LatestFolderFacts.

Lemma latest_folder_is_latest_witness :
  (forall a b, number_gt a b = true -> number_gt b a = false)
  /\ (forall a b c, number_gt a b = false -> number_gt b c = false -> number_gt a c = false)
  /\ (forall f, In f example_folders -> timestamp_match (fun _ => false) f = true ->
                digits_value f <> None)
  /\ get_latest_folder_path (fun _ => false) digits_value number_gt (u"outputs") example_folders
     = Folder (u"outputs/20250309_080000")
  /\ ((get_latest_folder_path (fun _ => false) digits_value number_gt (u"outputs") example_folders
         = NoFolder
       /\ forall f, In f example_folders -> timestamp_match (fun _ => false) f = false)
      \/ exists latest kl,
           get_latest_folder_path (fun _ => false) digits_value number_gt (u"outputs") example_folders
             = Folder (posix_join (u"outputs") latest)
           /\ In latest example_folders
           /\ timestamp_match (fun _ => false) latest = true
           /\ digits_value latest = Some kl
           /\ forall g kg, In g example_folders -> timestamp_match (fun _ => false) g = true ->
                           digits_value g = Some kg -> number_gt kg kl = false).
Proof.
  assert (H1 : forall a b, number_gt a b = true -> number_gt b a = false).
  { unfold number_gt. intros a b H. apply N.ltb_lt in H. apply N.ltb_ge. lia. }
  assert (H2 : forall a b c, number_gt a b = false -> number_gt b c = false -> number_gt a c = false).
  { unfold number_gt. intros a b c Ha Hb. apply N.ltb_ge in Ha, Hb. apply N.ltb_ge. lia. }
  assert (H3 : forall f, In f example_folders -> timestamp_match (fun _ => false) f = true ->
                         digits_value f <> None).
  { intros f [<-|[<-|[<-|[<-|[]]]]] Hm;
      first [vm_compute in Hm; discriminate Hm | vm_compute; discriminate]. }
  split; [exact H1|]. split; [exact H2|]. split; [exact H3|].
  split; [vm_compute; reflexivity|].
  exact (latest_folder_is_latest (fun _ => false) N digits_value number_gt (u"outputs")
           example_folders H1 H2 H3).
Defined.
